(** * Elevator control system: a shallow embedding of [src/elevator/elevator.cpp]

    The development follows the two classes of the program.

    - [Elevator] is the per-car record with its request collections and the
      bodies of the methods the control thread runs ([move], [openDoors],
      [processStop], [closeDoors], [updateState], [handleEmergency], ...).
    - [ElevatorControlSystem] is the fleet with the scoring dispatcher.

    Conventions of the model.

    - C++ [int] is [Z].  The one [int] computation that leaves the 32-bit
      range on a building the constructor accepts is the initial
      [minDistance = maxFloors + 1] of [findNextFloor] (at
      [maxFloors = INT_MAX]); it is computed with the two's-complement
      wrap-around [int_wrap], which is what the compiled program does.  The
      other quantities (floors, passenger counts, scores) are not wrapped.
      [/] on [int] truncates towards zero, hence [Z.quot].
    - [std::set<int>] is [gset Z] and [std::map<int, pair<bool,bool>>] is
      [gmap Z (bool * bool)].  Both C++ containers iterate in increasing key
      order; wherever the program iterates or uses [begin], [lower_bound],
      [upper_bound], the model works on the sorted enumeration.
    - The random draws of [simulatePassengers] are arguments of the model.
    - [sleep_for], [cout] and the wall-clock fields ([startTime],
      [lastMaintenance], time stamps of the log) have no counterpart; the
      calls of [logEvent] are kept as a list of [Event]s.
    - The two busy-wait loops of [handleEmergency] and [handleMaintenance]
      read atomics that only other threads change; the model feeds them the
      list of control calls that arrive, one per poll. *)

From stdpp Require Import gmap list sorting.
From Stdlib Require Import ZArith Lia.

Open Scope Z_scope.

(** ** Data model *)

(** The limits of a 32-bit [int] and the value a result outside them wraps
    to. *)
Definition INT_MAX : Z := 2147483647.
Definition INT_MIN : Z := -2147483648.

Definition int_wrap (z : Z) : Z := (z - INT_MIN) mod 4294967296 + INT_MIN.

Inductive ElevatorState :=
  | IDLE | MOVING_UP | MOVING_DOWN | DOORS_OPEN | EMERGENCY_STOP | MAINTENANCE.

Inductive RequestType := INTERNAL | EXTERNAL_UP | EXTERNAL_DOWN.

#[global] Instance ElevatorState_eq_dec : EqDecision ElevatorState.
Proof. solve_decision. Defined.

#[global] Instance RequestType_eq_dec : EqDecision RequestType.
Proof. solve_decision. Defined.

(** One constructor per call of [logEvent] in the source. *)
Inductive Event :=
  | EvEmergencyRequest
  | EvInternalRequest (floor : Z)
  | EvExternalUpRequest (floor : Z)
  | EvExternalDownRequest (floor : Z)
  | EvArrived (floor : Z)
  | EvDoorsOpened (floor : Z)
  | EvPassengers (entering exiting current cap : Z)
  | EvOverloadWarning
  | EvDoorsClosed
  | EvEmergencyActivated
  | EvEmergencyDoorsOpened (floor : Z)
  | EvEmergencyCleared
  | EvMaintenanceEnded.

Record Elevator := mkElevator {
  id : Z;
  currentFloor : Z;
  state : ElevatorState;
  maxFloors : Z;
  capacity : Z;
  currentPassengers : Z;
  doorOpen : bool;
  overloaded : bool;
  internalRequests : gset Z;
  externalRequests : gmap Z (bool * bool);
  running : bool;
  emergencyStop : bool;
  maintenanceMode : bool;
  totalTrips : Z;
  totalFloorsTraveled : Z;
  events : list Event
}.

(** Field assignments. *)
Definition set_currentFloor (v : Z) (e : Elevator) : Elevator :=
  mkElevator (id e) v (state e) (maxFloors e) (capacity e)
    (currentPassengers e) (doorOpen e) (overloaded e) (internalRequests e)
    (externalRequests e) (running e) (emergencyStop e) (maintenanceMode e)
    (totalTrips e) (totalFloorsTraveled e) (events e).

Definition set_state (v : ElevatorState) (e : Elevator) : Elevator :=
  mkElevator (id e) (currentFloor e) v (maxFloors e) (capacity e)
    (currentPassengers e) (doorOpen e) (overloaded e) (internalRequests e)
    (externalRequests e) (running e) (emergencyStop e) (maintenanceMode e)
    (totalTrips e) (totalFloorsTraveled e) (events e).

Definition set_currentPassengers (v : Z) (e : Elevator) : Elevator :=
  mkElevator (id e) (currentFloor e) (state e) (maxFloors e) (capacity e)
    v (doorOpen e) (overloaded e) (internalRequests e)
    (externalRequests e) (running e) (emergencyStop e) (maintenanceMode e)
    (totalTrips e) (totalFloorsTraveled e) (events e).

Definition set_doorOpen (v : bool) (e : Elevator) : Elevator :=
  mkElevator (id e) (currentFloor e) (state e) (maxFloors e) (capacity e)
    (currentPassengers e) v (overloaded e) (internalRequests e)
    (externalRequests e) (running e) (emergencyStop e) (maintenanceMode e)
    (totalTrips e) (totalFloorsTraveled e) (events e).

Definition set_overloaded (v : bool) (e : Elevator) : Elevator :=
  mkElevator (id e) (currentFloor e) (state e) (maxFloors e) (capacity e)
    (currentPassengers e) (doorOpen e) v (internalRequests e)
    (externalRequests e) (running e) (emergencyStop e) (maintenanceMode e)
    (totalTrips e) (totalFloorsTraveled e) (events e).

Definition set_internalRequests (v : gset Z) (e : Elevator) : Elevator :=
  mkElevator (id e) (currentFloor e) (state e) (maxFloors e) (capacity e)
    (currentPassengers e) (doorOpen e) (overloaded e) v
    (externalRequests e) (running e) (emergencyStop e) (maintenanceMode e)
    (totalTrips e) (totalFloorsTraveled e) (events e).

Definition set_externalRequests (v : gmap Z (bool * bool)) (e : Elevator)
  : Elevator :=
  mkElevator (id e) (currentFloor e) (state e) (maxFloors e) (capacity e)
    (currentPassengers e) (doorOpen e) (overloaded e) (internalRequests e)
    v (running e) (emergencyStop e) (maintenanceMode e)
    (totalTrips e) (totalFloorsTraveled e) (events e).

Definition set_running (v : bool) (e : Elevator) : Elevator :=
  mkElevator (id e) (currentFloor e) (state e) (maxFloors e) (capacity e)
    (currentPassengers e) (doorOpen e) (overloaded e) (internalRequests e)
    (externalRequests e) v (emergencyStop e) (maintenanceMode e)
    (totalTrips e) (totalFloorsTraveled e) (events e).

Definition set_emergencyStop (v : bool) (e : Elevator) : Elevator :=
  mkElevator (id e) (currentFloor e) (state e) (maxFloors e) (capacity e)
    (currentPassengers e) (doorOpen e) (overloaded e) (internalRequests e)
    (externalRequests e) (running e) v (maintenanceMode e)
    (totalTrips e) (totalFloorsTraveled e) (events e).

Definition set_maintenanceMode (v : bool) (e : Elevator) : Elevator :=
  mkElevator (id e) (currentFloor e) (state e) (maxFloors e) (capacity e)
    (currentPassengers e) (doorOpen e) (overloaded e) (internalRequests e)
    (externalRequests e) (running e) (emergencyStop e) v
    (totalTrips e) (totalFloorsTraveled e) (events e).

Definition set_totalTrips (v : Z) (e : Elevator) : Elevator :=
  mkElevator (id e) (currentFloor e) (state e) (maxFloors e) (capacity e)
    (currentPassengers e) (doorOpen e) (overloaded e) (internalRequests e)
    (externalRequests e) (running e) (emergencyStop e) (maintenanceMode e)
    v (totalFloorsTraveled e) (events e).

Definition set_totalFloorsTraveled (v : Z) (e : Elevator) : Elevator :=
  mkElevator (id e) (currentFloor e) (state e) (maxFloors e) (capacity e)
    (currentPassengers e) (doorOpen e) (overloaded e) (internalRequests e)
    (externalRequests e) (running e) (emergencyStop e) (maintenanceMode e)
    (totalTrips e) v (events e).

(** [logEvent]: append a record to the car's log. *)
Definition logEvent (ev : Event) (e : Elevator) : Elevator :=
  mkElevator (id e) (currentFloor e) (state e) (maxFloors e) (capacity e)
    (currentPassengers e) (doorOpen e) (overloaded e) (internalRequests e)
    (externalRequests e) (running e) (emergencyStop e) (maintenanceMode e)
    (totalTrips e) (totalFloorsTraveled e) (events e ++ [ev]).

(** The constructor: floor 1, idle, empty, running, no latch. *)
Definition newElevator (id maxFloors capacity : Z) : Elevator :=
  mkElevator id 1 IDLE maxFloors capacity 0 false false ∅ ∅
    true false false 0 0 [].

(** ** Ordered traversal of the two containers *)

(** [std::set<int>] enumerates its elements in increasing order. *)
Definition floors_in_order (s : gset Z) : list Z :=
  merge_sort Z.le (elements s).

Definition key_le (a b : Z * (bool * bool)) : Prop := a.1 ≤ b.1.

#[global] Instance key_le_dec : RelDecision key_le.
Proof. intros a b. unfold key_le. apply _. Defined.

(** [std::map] enumerates its entries in increasing key order. *)
Definition requests_in_order (m : gmap Z (bool * bool))
  : list (Z * (bool * bool)) :=
  merge_sort key_le (map_to_list m).

(** ** [Elevator::requestFloor] *)

(** [externalRequests[floor].first = true] and [.second = true]. *)
Definition press_up (p : bool * bool) : bool * bool := (true, p.2).
Definition press_down (p : bool * bool) : bool * bool := (p.1, true).

(** The entry is created with both bits clear when it is missing. *)
Definition ensure_entry (floor : Z) (m : gmap Z (bool * bool))
  : gmap Z (bool * bool) :=
  match m !! floor with
  | None => <[floor := (false, false)]> m
  | Some _ => m
  end.

Definition requestFloor (floor : Z) (type : RequestType) (emergency : bool)
    (e : Elevator) : bool * Elevator :=
  if bool_decide (floor < 1 ∨ maxFloors e < floor) then (false, e)
  else if maintenanceMode e && negb emergency then (false, e)
  else if emergency then
    (true, logEvent EvEmergencyRequest (set_emergencyStop true e))
  else
    match type with
    | INTERNAL =>
        if bool_decide (floor ∉ internalRequests e) then
          (true, logEvent (EvInternalRequest floor)
                   (set_internalRequests ({[floor]} ∪ internalRequests e) e))
        else (false, e)
    | EXTERNAL_UP =>
        (true, logEvent (EvExternalUpRequest floor)
                 (set_externalRequests
                    (alter press_up floor
                       (ensure_entry floor (externalRequests e))) e))
    | EXTERNAL_DOWN =>
        (true, logEvent (EvExternalDownRequest floor)
                 (set_externalRequests
                    (alter press_down floor
                       (ensure_entry floor (externalRequests e))) e))
    end.

(** The other public control calls. *)
Definition stop (e : Elevator) : Elevator := set_running false e.
Definition resetEmergency (e : Elevator) : Elevator := set_emergencyStop false e.
Definition setMaintenanceMode (mode : bool) (e : Elevator) : Elevator :=
  set_maintenanceMode mode e.

(** ** The methods run by the control thread *)

Definition pressed (req : Z * (bool * bool)) : bool := req.2.1 || req.2.2.

Definition hasExternalRequests (e : Elevator) : bool :=
  existsb pressed (requests_in_order (externalRequests e)).

(** Iterators into the sorted enumeration are positions.
    [upper_bound k] is the first element greater than [k] (with its
    position), [lower_bound k] the position of the first element not less
    than [k]; the end iterator is [None], resp. the length. *)
Definition upper_bound (k : Z) (l : list Z) : option (nat * Z) :=
  list_find (λ x, k < x) l.

Definition lower_bound (k : Z) (l : list Z) : nat :=
  match list_find (λ x, k ≤ x) l with
  | Some (i, _) => i
  | None => length l
  end.

(** A hall call is "on the way" when it is an up call at or above the car or
    a down call at or below it. *)
Definition on_the_way (cur : Z) (req : Z * (bool * bool)) : bool :=
  (req.2.1 && bool_decide (cur ≤ req.1))
  || (req.2.2 && bool_decide (req.1 ≤ cur)).

(** The body shared by the two [for] loops of [findNextFloor]: the running
    pair [(minDistance, closestFloor)] is replaced only by a strictly closer
    entry that satisfies the loop's condition. *)
Fixpoint closest_scan (cond : Z * (bool * bool) → bool) (cur : Z)
    (reqs : list (Z * (bool * bool))) (minDistance closestFloor : Z)
  : Z * Z :=
  match reqs with
  | [] => (minDistance, closestFloor)
  | req :: rest =>
      let distance := Z.abs (req.1 - cur) in
      if cond req && bool_decide (distance < minDistance)
      then closest_scan cond cur rest distance req.1
      else closest_scan cond cur rest minDistance closestFloor
  end.

Definition findNextFloor (e : Elevator) : Z :=
  let cur := currentFloor e in
  let s := floors_in_order (internalRequests e) in
  match s with
  | first :: _ =>
      match state e with
      | MOVING_UP =>
          match upper_bound cur s with
          | Some (_, x) => x
          | None => first
          end
      | MOVING_DOWN =>
          match lower_bound cur s with
          | O => first
          | S i => default first (s !! i)
          end
      | _ => first
      end
  | [] =>
      let reqs := requests_in_order (externalRequests e) in
      let '(minDistance, closestFloor) :=
        closest_scan (on_the_way cur) cur reqs (int_wrap (maxFloors e + 1))
          (-1) in
      if bool_decide (closestFloor ≠ -1) then closestFloor
      else (closest_scan pressed cur reqs minDistance closestFloor).2
  end.

Definition shouldStopAtCurrentFloor (e : Elevator) : bool :=
  if bool_decide (currentFloor e ∈ internalRequests e) then true
  else
    match externalRequests e !! currentFloor e with
    | Some (up, down) =>
        if bool_decide (state e = MOVING_UP) && up then true
        else if bool_decide (state e = MOVING_DOWN) && down then true
        else if bool_decide (state e = IDLE) && (up || down) then true
        else false
    | None => false
    end.

(** The bits of the entry at the current floor after [processStop]'s
    assignments, by the value of [state] at that moment. *)
Definition clear_served (st : ElevatorState) (p : bool * bool) : bool * bool :=
  match st with
  | MOVING_UP => (false, p.2)
  | MOVING_DOWN => (p.1, false)
  | _ => (false, false)
  end.

Definition processStop (e : Elevator) : Elevator :=
  let cur := currentFloor e in
  let e1 := set_internalRequests (internalRequests e ∖ {[cur]}) e in
  let e2 :=
    match externalRequests e1 !! cur with
    | Some p =>
        let p' := clear_served (state e1) p in
        if negb p'.1 && negb p'.2
        then set_externalRequests (delete cur (externalRequests e1)) e1
        else set_externalRequests (<[cur := p']> (externalRequests e1)) e1
    | None => e1
    end in
  set_totalTrips (totalTrips e2 + 1) e2.

Definition move (e : Elevator) : Elevator :=
  match state e with
  | MOVING_UP | MOVING_DOWN =>
      let oldFloor := currentFloor e in
      let e1 :=
        if bool_decide (state e = MOVING_UP)
        then set_currentFloor (currentFloor e + 1) e
        else set_currentFloor (currentFloor e - 1) e in
      let e2 :=
        set_totalFloorsTraveled
          (totalFloorsTraveled e1 + Z.abs (currentFloor e1 - oldFloor)) e1 in
      logEvent (EvArrived (currentFloor e2)) e2
  | _ => e
  end.

(** [entering] is the draw from [0..5], [exiting] the draw from
    [0..min(5, currentPassengers)]. *)
Definition simulatePassengers (entering exiting : Z) (e : Elevator)
  : Elevator :=
  let entering := Z.min entering (capacity e - currentPassengers e) in
  let e1 :=
    set_currentPassengers (currentPassengers e + (entering - exiting)) e in
  let e2 :=
    if bool_decide (capacity e1 < currentPassengers e1)
    then set_currentPassengers (capacity e1) (set_overloaded true e1)
    else e1 in
  logEvent
    (EvPassengers entering exiting (currentPassengers e2) (capacity e2)) e2.

Definition valid_draw (e : Elevator) (entering exiting : Z) : Prop :=
  0 ≤ entering ≤ 5 ∧ 0 ≤ exiting ≤ Z.min 5 (currentPassengers e).

Definition openDoors (entering exiting : Z) (e : Elevator) : Elevator :=
  let e1 := set_doorOpen true (set_state DOORS_OPEN e) in
  let e2 := logEvent (EvDoorsOpened (currentFloor e1)) e1 in
  simulatePassengers entering exiting e2.

Definition closeDoors (e : Elevator) : Elevator :=
  let e1 :=
    if overloaded e
    then set_overloaded false (logEvent EvOverloadWarning e)
    else e in
  set_doorOpen false (logEvent EvDoorsClosed e1).

(** The direction chosen from a target: up when the target is strictly
    above the car, down otherwise. *)
Definition direction (nextFloor cur : Z) : ElevatorState :=
  if bool_decide (cur < nextFloor) then MOVING_UP else MOVING_DOWN.

Definition updateState (e : Elevator) : Elevator :=
  if bool_decide (internalRequests e = ∅) && negb (hasExternalRequests e)
  then set_state IDLE e
  else
    let nextFloor := findNextFloor e in
    if bool_decide (nextFloor ≠ -1)
    then set_state (direction nextFloor (currentFloor e)) e
    else set_state IDLE e.

(** ** Emergency and maintenance handling *)

(** The control calls another thread can make while the control thread
    polls a latch; [CallNone] is a poll during which nothing arrives. *)
Inductive ControlCall :=
  | CallNone
  | CallResetEmergency
  | CallStop
  | CallSetMaintenanceMode (mode : bool)
  | CallEmergencyRequest (floor : Z) (type : RequestType).

Definition deliver (c : ControlCall) (e : Elevator) : Elevator :=
  match c with
  | CallNone => e
  | CallResetEmergency => resetEmergency e
  | CallStop => stop e
  | CallSetMaintenanceMode mode => setMaintenanceMode mode e
  | CallEmergencyRequest floor type => (requestFloor floor type true e).2
  end.

(** [while (latch && running) sleep]: one call is delivered per poll;
    [None] when the calls run out while the loop is still polling. *)
Fixpoint poll_while (latch : Elevator → bool) (calls : list ControlCall)
    (e : Elevator) : option Elevator :=
  if latch e && running e then
    match calls with
    | [] => None
    | c :: rest => poll_while latch rest (deliver c e)
    end
  else Some e.

(** The part of [handleEmergency] before the wait. *)
Definition emergency_enter (e : Elevator) : Elevator :=
  let e1 := set_state EMERGENCY_STOP (logEvent EvEmergencyActivated e) in
  if bool_decide (1 ≤ currentFloor e1) && bool_decide (currentFloor e1 ≤ maxFloors e1)
  then logEvent (EvEmergencyDoorsOpened (currentFloor e1)) (set_doorOpen true e1)
  else e1.

(** The part of [handleEmergency] after the wait. *)
Definition emergency_leave (e : Elevator) : Elevator :=
  if running e
  then set_doorOpen false (set_state IDLE (logEvent EvEmergencyCleared e))
  else e.

Definition handleEmergency (calls : list ControlCall) (e : Elevator)
  : option Elevator :=
  emergency_leave <$> poll_while emergencyStop calls (emergency_enter e).

Definition handleMaintenance (calls : list ControlCall) (e : Elevator)
  : option Elevator :=
  (λ e', if running e' then set_state IDLE (logEvent EvMaintenanceEnded e')
         else e')
    <$> poll_while maintenanceMode calls (set_state MAINTENANCE e).

(** ** [Elevator::control]: one iteration of the loop *)

(** The predicate of [cv.wait]. *)
Definition wake_condition (e : Elevator) : bool :=
  negb (bool_decide (internalRequests e = ∅))
  || hasExternalRequests e
  || negb (running e) || emergencyStop e || maintenanceMode e.

(** Lines 189-194: an idle car with work picks a direction. *)
Definition chooseDirection (e : Elevator) : Elevator :=
  if bool_decide (state e = IDLE) then
    if negb (bool_decide (internalRequests e = ∅)) || hasExternalRequests e
    then set_state (direction (findNextFloor e) (currentFloor e)) e
    else e
  else e.

(** Lines 203-207: the stop cycle. *)
Definition stopCycle (entering exiting : Z) (e : Elevator) : Elevator :=
  closeDoors (processStop (openDoors entering exiting e)).

Inductive Iteration :=
  | Continue (e : Elevator)   (* the iteration ran to its end *)
  | Blocked                   (* the thread is waiting *)
  | Exit.                     (* [running] is false: the loop ends *)

(** One iteration, with no interference from other threads between the
    tests of the flags: [calls] reach the car only inside a latch wait, and
    [(entering, exiting)] are the draws used if the car stops. *)
Definition control_iteration (calls : list ControlCall)
    (entering exiting : Z) (e : Elevator) : Iteration :=
  if negb (running e) then Exit
  else if emergencyStop e then
    match handleEmergency calls e with
    | Some e' => Continue e'
    | None => Blocked
    end
  else if maintenanceMode e then
    match handleMaintenance calls e with
    | Some e' => Continue e'
    | None => Blocked
    end
  else if negb (wake_condition e) then Blocked
  else
    let e1 := chooseDirection e in
    let e2 := move e1 in
    let e3 :=
      if shouldStopAtCurrentFloor e2 then stopCycle entering exiting e2
      else e2 in
    Continue (updateState e3).

(** ** [ElevatorControlSystem]: the dispatcher *)

Definition isEmergency (e : Elevator) : bool := emergencyStop e.
Definition isInMaintenance (e : Elevator) : bool := maintenanceMode e.

Record ElevatorControlSystem := mkSystem {
  elevators : list Elevator;
  systemMaxFloors : Z
}.

(** The constructor builds cars [1 .. numElevators]. *)
Definition newSystem (numElevators : nat) (maxFloors capacity : Z)
  : ElevatorControlSystem :=
  mkSystem
    ((λ i : nat, newElevator (Z.of_nat i + 1) maxFloors capacity)
       <$> seq 0 numElevators)
    maxFloors.

(** [calculateElevatorScore], on the car [elevators[elevatorIndex]]. *)
Definition calculateElevatorScore (elevator : Elevator) (targetFloor : Z)
    (type : RequestType) : Z :=
  if isEmergency elevator || isInMaintenance elevator then INT_MAX
  else
    let currentFloor := currentFloor elevator in
    let state := state elevator in
    let passengerCount := currentPassengers elevator in
    let capacity := capacity elevator in
    let distance := Z.abs (currentFloor - targetFloor) in
    let directionScore :=
      if bool_decide (state = MOVING_UP) then
        if bool_decide (currentFloor ≤ targetFloor) then -10 else 10
      else if bool_decide (state = MOVING_DOWN) then
        if bool_decide (targetFloor ≤ currentFloor) then -10 else 10
      else if bool_decide (state = IDLE) then -5
      else 0 in
    let loadScore := (passengerCount * 10) ÷ capacity in
    let typeScore :=
      if bool_decide (type = EXTERNAL_UP) && bool_decide (state = MOVING_DOWN)
      then 5
      else if bool_decide (type = EXTERNAL_DOWN)
              && bool_decide (state = MOVING_UP)
      then 5
      else 0 in
    distance + directionScore + loadScore + typeScore.

(** The loop of [findBestElevator] from index [i] on: [es] are the cars
    [elevators[i..]]. *)
Fixpoint findBest_loop (es : list Elevator) (i : nat) (floor : Z)
    (type : RequestType) (bestIndex : nat) (bestScore : Z) : nat :=
  match es with
  | [] => bestIndex
  | elevator :: rest =>
      let score := calculateElevatorScore elevator floor type in
      if bool_decide (score < bestScore)
      then findBest_loop rest (S i) floor type i score
      else findBest_loop rest (S i) floor type bestIndex bestScore
  end.

Definition findBestElevator (sys : ElevatorControlSystem) (floor : Z)
    (type : RequestType) : nat :=
  findBest_loop (elevators sys) 0 floor type 0%nat INT_MAX.

(** [elevators[i].requestFloor(floor, type, emergency)]; the result of the
    call is dropped by every caller in the dispatcher. *)
Definition forward (i : nat) (floor : Z) (type : RequestType)
    (emergency : bool) (sys : ElevatorControlSystem) : ElevatorControlSystem :=
  mkSystem
    (alter (λ e, (requestFloor floor type emergency e).2) i (elevators sys))
    (systemMaxFloors sys).

(** [preferredElevator] is [-1] when the caller names no car. *)
Definition requestElevator (floor : Z) (type : RequestType) (emergency : bool)
    (preferredElevator : Z) (sys : ElevatorControlSystem)
  : ElevatorControlSystem :=
  if bool_decide (floor < 1 ∨ systemMaxFloors sys < floor) then sys
  else if emergency then
    mkSystem ((λ e, (requestFloor floor type true e).2) <$> elevators sys)
      (systemMaxFloors sys)
  else if bool_decide (0 < preferredElevator)
          && bool_decide (preferredElevator ≤ Z.of_nat (length (elevators sys)))
  then forward (Z.to_nat (preferredElevator - 1)) floor type false sys
  else forward (findBestElevator sys floor type) floor type false sys.

(** The car a plain submit (no emergency, no preferred car) is handed to. *)
Definition chosen_car (sys : ElevatorControlSystem) (floor : Z)
    (type : RequestType) : option Elevator :=
  elevators sys !! findBestElevator sys floor type.

(** ** Runs of one car *)

(** What can happen to a car: a call of one of its public methods by
    another thread, or one iteration of its control loop.  Public calls are
    taken between iterations. *)
Inductive Action :=
  | ActRequest (floor : Z) (type : RequestType) (emergency : bool)
  | ActResetEmergency
  | ActSetMaintenanceMode (mode : bool)
  | ActStop
  | ActControl (calls : list ControlCall) (entering exiting : Z).

Definition act (a : Action) (e : Elevator) : Elevator :=
  match a with
  | ActRequest floor type emergency => (requestFloor floor type emergency e).2
  | ActResetEmergency => resetEmergency e
  | ActSetMaintenanceMode mode => setMaintenanceMode mode e
  | ActStop => stop e
  | ActControl calls entering exiting =>
      match control_iteration calls entering exiting e with
      | Continue e' => e'
      | Blocked | Exit => e
      end
  end.

Definition run (acts : list Action) (e : Elevator) : Elevator :=
  foldl (λ e a, act a e) e acts.

(** ** Vocabulary of the statements *)

(** What neither a control call nor the emergency handler changes. *)
Definition same_cabin (e e' : Elevator) : Prop :=
  internalRequests e' = internalRequests e
  ∧ externalRequests e' = externalRequests e
  ∧ currentFloor e' = currentFloor e
  ∧ currentPassengers e' = currentPassengers e.

(** Requests are pending: the set of car calls is not empty or some hall
    bit is set. *)
Definition pending (e : Elevator) : Prop :=
  internalRequests e ≠ ∅ ∨ hasExternalRequests e = true.





(** The distance the closest-floor loop computes for an entry. *)
Definition distance (cur : Z) (req : Z * (bool * bool)) : Z :=
  Z.abs (req.1 - cur).

(** Hall floors lie in [1, maxFloors] (only [requestFloor] creates entries),
    the car is at most one floor outside the shaft, and [maxFloors + 1] is
    an [int]. *)
Definition floors_in_shaft (e : Elevator) : Prop :=
  map_Forall (λ f _, 1 ≤ f ≤ maxFloors e) (externalRequests e)
  ∧ 0 ≤ currentFloor e ≤ maxFloors e + 1
  ∧ maxFloors e < INT_MAX.

Definition hall_on_the_way (e : Elevator) (f : Z) : Prop :=
  ∃ p, externalRequests e !! f = Some p
       ∧ on_the_way (currentFloor e) (f, p) = true.

(** A car at floor 4 moving up, with car calls 2, 6 and 9 and hall calls
    down at 3 and up at 5. *)
Definition sample_car : Elevator :=
  mkElevator 1 4 MOVING_UP 10 5 0 false false {[2; 6; 9]}
    (<[3 := (false, true)]> (<[5 := (true, false)]> ∅))
    true false false 0 0 [].

(** Requested floors are floors of the building, the car is in the shaft
    or one floor below it, and [maxFloors + 1] is an [int]. *)
Definition floors_valid (e : Elevator) : Prop :=
  (∀ x, x ∈ internalRequests e → 1 ≤ x ≤ maxFloors e)
  ∧ map_Forall (λ f _, 1 ≤ f ≤ maxFloors e) (externalRequests e)
  ∧ 0 ≤ currentFloor e ≤ maxFloors e
  ∧ maxFloors e < INT_MAX.

(** A moving car has a floor to move to. *)
Definition heading_valid (e : Elevator) : Prop :=
  (state e = MOVING_UP → currentFloor e < maxFloors e)
  ∧ (state e = MOVING_DOWN → 1 ≤ currentFloor e).

(** The invariant of a run. *)
Definition shaft_inv (e : Elevator) : Prop := floors_valid e ∧ heading_valid e.

(** ** The dispatcher's pass-through calls *)

Module System.

(** [ElevatorControlSystem::resetEmergency(elevatorId)]: car ids start at 1;
    an id outside [1, size] only prints a message. *)
Definition resetEmergency (elevatorId : Z) (sys : ElevatorControlSystem)
  : ElevatorControlSystem :=
  if bool_decide (0 < elevatorId)
     && bool_decide (elevatorId ≤ Z.of_nat (length (elevators sys)))
  then mkSystem (alter resetEmergency (Z.to_nat (elevatorId - 1))
                   (elevators sys))
         (systemMaxFloors sys)
  else sys.

(** [ElevatorControlSystem::setMaintenanceMode(elevatorId, mode)]. *)
Definition setMaintenanceMode (elevatorId : Z) (mode : bool)
    (sys : ElevatorControlSystem) : ElevatorControlSystem :=
  if bool_decide (0 < elevatorId)
     && bool_decide (elevatorId ≤ Z.of_nat (length (elevators sys)))
  then mkSystem (alter (setMaintenanceMode mode) (Z.to_nat (elevatorId - 1))
                   (elevators sys))
         (systemMaxFloors sys)
  else sys.

Definition getElevatorCount (sys : ElevatorControlSystem) : Z :=
  Z.of_nat (length (elevators sys)).

End System.

(** ** Vocabulary of the further statements *)

(** Number of log records that satisfy a test. *)
Fixpoint count (P : Event → bool) (l : list Event) : Z :=
  match l with
  | [] => 0
  | ev :: rest => (if P ev then 1 else 0) + count P rest
  end.

Definition is_arrived (ev : Event) : bool :=
  match ev with EvArrived _ => true | _ => false end.

Definition is_opened (ev : Event) : bool :=
  match ev with EvDoorsOpened _ => true | _ => false end.

Definition is_overload (ev : Event) : bool :=
  match ev with EvOverloadWarning => true | _ => false end.

(** The records written by the emergency and maintenance paths. *)
Definition is_control_event (ev : Event) : bool :=
  match ev with
  | EvEmergencyRequest | EvEmergencyActivated | EvEmergencyDoorsOpened _
  | EvEmergencyCleared | EvMaintenanceEnded => true
  | _ => false
  end.

(** [e'] differs from [e] at most in [state], [doorOpen], the three
    atomics, and by control records added to the log. *)
Definition control_only (e e' : Elevator) : Prop :=
  id e' = id e
  ∧ currentFloor e' = currentFloor e
  ∧ maxFloors e' = maxFloors e
  ∧ capacity e' = capacity e
  ∧ currentPassengers e' = currentPassengers e
  ∧ overloaded e' = overloaded e
  ∧ internalRequests e' = internalRequests e
  ∧ externalRequests e' = externalRequests e
  ∧ totalTrips e' = totalTrips e
  ∧ totalFloorsTraveled e' = totalFloorsTraveled e
  ∧ ∃ l, events e' = events e ++ l
         ∧ Forall (λ ev, is_control_event ev = true) l.

(** The two collections after a plain request that passes the range and
    maintenance tests. *)
Definition requested_car_calls (floor : Z) (type : RequestType) (s : gset Z)
  : gset Z :=
  match type with INTERNAL => {[floor]} ∪ s | _ => s end.

Definition requested_hall_calls (floor : Z) (type : RequestType)
    (m : gmap Z (bool * bool)) : gmap Z (bool * bool) :=
  match type with
  | INTERNAL => m
  | EXTERNAL_UP => alter press_up floor (ensure_entry floor m)
  | EXTERNAL_DOWN => alter press_down floor (ensure_entry floor m)
  end.

(** The records written by [requestFloor]. *)
Definition is_request_event (ev : Event) : bool :=
  match ev with
  | EvEmergencyRequest | EvInternalRequest _ | EvExternalUpRequest _
  | EvExternalDownRequest _ => true
  | _ => false
  end.

(** [e'] differs from [e] at most in the two request collections, in
    [emergencyStop], and by request records added to the log. *)
Definition request_only (e e' : Elevator) : Prop :=
  id e' = id e
  ∧ currentFloor e' = currentFloor e
  ∧ state e' = state e
  ∧ maxFloors e' = maxFloors e
  ∧ capacity e' = capacity e
  ∧ currentPassengers e' = currentPassengers e
  ∧ doorOpen e' = doorOpen e
  ∧ overloaded e' = overloaded e
  ∧ running e' = running e
  ∧ maintenanceMode e' = maintenanceMode e
  ∧ totalTrips e' = totalTrips e
  ∧ totalFloorsTraveled e' = totalFloorsTraveled e
  ∧ ∃ l, events e' = events e ++ l
         ∧ Forall (λ ev, is_request_event ev = true) l.

(** The floor change of one motion step, by the state of the car. *)
Definition heading (st : ElevatorState) : Z :=
  match st with
  | MOVING_UP => 1
  | MOVING_DOWN => -1
  | _ => 0
  end.

(** The fields no part of the stop cycle assigns. *)
Definition same_fixed (e e' : Elevator) : Prop :=
  id e' = id e
  ∧ currentFloor e' = currentFloor e
  ∧ maxFloors e' = maxFloors e
  ∧ capacity e' = capacity e
  ∧ running e' = running e
  ∧ emergencyStop e' = emergencyStop e
  ∧ maintenanceMode e' = maintenanceMode e
  ∧ totalFloorsTraveled e' = totalFloorsTraveled e.

(** An idle car at floor 5 with an up call below it (floor 3) and a down
    call above it (floor 8): neither is on the way. *)
Definition fallback_car : Elevator :=
  mkElevator 1 5 IDLE 10 5 0 false false ∅
    (<[3 := (true, false)]> (<[8 := (false, true)]> ∅))
    true false false 0 0 [].

(** What an accepted emergency request leaves of a car. *)
Definition latched (e : Elevator) : Elevator :=
  logEvent EvEmergencyRequest (set_emergencyStop true e).

(** Three idle cars at floors 2, 6 and 9. *)
Definition sample_fleet : ElevatorControlSystem :=
  mkSystem [set_currentFloor 2 (newElevator 1 10 5);
            set_currentFloor 6 (newElevator 2 10 5);
            set_currentFloor 9 (newElevator 3 10 5)] 10.

(** Control-loop iterations with no control call arriving, one per pair
    of draws. *)
Definition iterations (draws : list (Z * Z)) : list Action :=
  (λ d, ActControl [] d.1 d.2) <$> draws.

(** A running car with no latch set whose only request is the car call
    of floor [t]. *)
Definition lone_call (e : Elevator) (t : Z) : Prop :=
  internalRequests e = {[t]}
  ∧ externalRequests e = ∅
  ∧ running e = true
  ∧ emergencyStop e = false
  ∧ maintenanceMode e = false.

(** Every draw of a run is one the two distributions of
    [simulatePassengers] can produce for the car it is used on. *)
Fixpoint draws_valid (acts : list Action) (e : Elevator) : Prop :=
  match acts with
  | [] => True
  | a :: rest =>
      match a with
      | ActControl _ entering exiting => valid_draw e entering exiting
      | _ => True
      end
      ∧ draws_valid rest (act a e)
  end.

(** Every hall entry has a pressed bit. *)
Definition hall_entries_pressed (e : Elevator) : Prop :=
  map_Forall (λ _ p, p.1 || p.2 = true) (externalRequests e).

Definition hall_pressed (e : Elevator) (f : Z) : Prop :=
  ∃ p, externalRequests e !! f = Some p ∧ pressed (f, p) = true.

(** Every car of the fleet was built with the fleet's number of floors. *)
Definition cars_match (sys : ElevatorControlSystem) : Prop :=
  Forall (λ e, maxFloors e = systemMaxFloors sys) (elevators sys).

(** * Properties *)

(** ** The ordered enumerations *)

Section Enumerations.

Lemma elem_of_floors_in_order (x : Z) (s : gset Z) :
  x ∈ floors_in_order s ↔ x ∈ s.
Proof.
  unfold floors_in_order. rewrite merge_sort_Permutation.
  apply elem_of_elements.
Qed.

Lemma floors_in_order_sorted (s : gset Z) :
  StronglySorted Z.le (floors_in_order s).
Proof. unfold floors_in_order. apply (StronglySorted_merge_sort _). Qed.

Lemma floors_in_order_nil (s : gset Z) :
  floors_in_order s = [] ↔ s = ∅.
Proof.
  split.
  - intros Hnil. apply set_eq. intros x.
    rewrite <- elem_of_floors_in_order, Hnil. set_solver.
  - intros ->. reflexivity.
Qed.

#[local] Instance key_le_trans : Transitive key_le.
Proof. intros a b c. unfold key_le. lia. Qed.

#[local] Instance key_le_total : Total key_le.
Proof. intros a b. unfold key_le. lia. Qed.

Lemma elem_of_requests_in_order (f : Z) (p : bool * bool)
    (m : gmap Z (bool * bool)) :
  (f, p) ∈ requests_in_order m ↔ m !! f = Some p.
Proof.
  unfold requests_in_order. rewrite merge_sort_Permutation.
  apply elem_of_map_to_list.
Qed.

Lemma requests_in_order_sorted (m : gmap Z (bool * bool)) :
  StronglySorted key_le (requests_in_order m).
Proof. unfold requests_in_order. apply (StronglySorted_merge_sort _). Qed.

(** The head of a sorted list is its least element. *)
Lemma sorted_head_least (x y : Z) (l : list Z) :
  StronglySorted Z.le (x :: l) → y ∈ x :: l → x ≤ y.
Proof.
  intros Hs Hy. apply StronglySorted_inv in Hs as [_ Hall].
  apply elem_of_cons in Hy as [-> | Hy]; [lia |].
  rewrite Forall_forall in Hall. by apply Hall.
Qed.

(** In a sorted list, positions are ordered like the elements. *)
Lemma sorted_lookup_le (l : list Z) (i j : nat) (x y : Z) :
  StronglySorted Z.le l → l !! i = Some x → l !! j = Some y →
  (i ≤ j)%nat → x ≤ y.
Proof.
  intros Hs. revert i j. induction Hs as [| a l Hs IH Hall]; intros i j Hi Hj Hij.
  - by rewrite lookup_nil in Hi.
  - destruct i as [| i], j as [| j]; simpl in *; simplify_eq; try lia.
    + rewrite Forall_forall in Hall. apply Hall.
      by eapply list_elem_of_lookup_2.
    + eapply IH; eauto. lia.
Qed.

End Enumerations.

(** ** Requests at the car's interface *)

Section RequestFloor.

Implicit Types (e : Elevator) (floor : Z) (type : RequestType).
Implicit Types (m : gmap Z (bool * bool)).

Lemma ensure_entry_present floor m :
  is_Some (ensure_entry floor m !! floor).
Proof.
  unfold ensure_entry. destruct (m !! floor) eqn:Hm.
  - rewrite Hm. eauto.
  - rewrite lookup_insert_eq. eauto.
Qed.

Lemma ensure_entry_id floor m :
  is_Some (m !! floor) → ensure_entry floor m = m.
Proof. intros [p Hp]. unfold ensure_entry. by rewrite Hp. Qed.

(** Pressing a hall button a second time changes nothing in the map. *)
Lemma press_twice (press : bool * bool → bool * bool) floor m :
  (∀ p, press (press p) = press p) →
  alter press floor (ensure_entry floor (alter press floor (ensure_entry floor m)))
  = alter press floor (ensure_entry floor m).
Proof.
  intros Hidem.
  destruct (ensure_entry_present floor m) as [p Hp].
  rewrite ensure_entry_id.
  - rewrite alter_alter_eq. apply alter_ext. intros q _. apply Hidem.
  - rewrite lookup_alter_eq, Hp. simpl. eauto.
Qed.

Lemma in_range_test e floor :
  1 ≤ floor ≤ maxFloors e →
  bool_decide (floor < 1 ∨ maxFloors e < floor) = false.
Proof. intros H. apply bool_decide_eq_false. lia. Qed.

Lemma requestFloor_internal_new e floor :
  1 ≤ floor ≤ maxFloors e → maintenanceMode e = false →
  floor ∉ internalRequests e →
  requestFloor floor INTERNAL false e
  = (true, logEvent (EvInternalRequest floor)
             (set_internalRequests ({[floor]} ∪ internalRequests e) e)).
Proof.
  intros Hrange Hmaint Hnew. unfold requestFloor.
  rewrite in_range_test, Hmaint by done. simpl.
  by rewrite bool_decide_eq_true_2.
Qed.

Lemma requestFloor_internal_again e floor :
  1 ≤ floor ≤ maxFloors e → maintenanceMode e = false →
  floor ∈ internalRequests e →
  requestFloor floor INTERNAL false e = (false, e).
Proof.
  intros Hrange Hmaint Hold. unfold requestFloor.
  rewrite in_range_test, Hmaint by done. simpl.
  rewrite bool_decide_eq_false_2; [done | by intros ?].
Qed.

Lemma requestFloor_external_up e floor :
  1 ≤ floor ≤ maxFloors e → maintenanceMode e = false →
  requestFloor floor EXTERNAL_UP false e
  = (true, logEvent (EvExternalUpRequest floor)
             (set_externalRequests
                (alter press_up floor
                   (ensure_entry floor (externalRequests e))) e)).
Proof.
  intros Hrange Hmaint. unfold requestFloor.
  by rewrite in_range_test, Hmaint.
Qed.

Lemma requestFloor_external_down e floor :
  1 ≤ floor ≤ maxFloors e → maintenanceMode e = false →
  requestFloor floor EXTERNAL_DOWN false e
  = (true, logEvent (EvExternalDownRequest floor)
             (set_externalRequests
                (alter press_down floor
                   (ensure_entry floor (externalRequests e))) e)).
Proof.
  intros Hrange Hmaint. unfold requestFloor.
  by rewrite in_range_test, Hmaint.
Qed.

End RequestFloor.

(** C3 (as stated, refuted): the second press of the same car button is
    answered [false], not accepted.  A fresh car with ten floors accepts
    [requestFloor(3, INTERNAL)] and rejects the identical second call. *)
Lemma requestFloor_repress_internal_returns_false :
  let e := newElevator 1 10 5 in
  let first := requestFloor 3 INTERNAL false e in
  let second := requestFloor 3 INTERNAL false first.2 in
  1 ≤ 3 ≤ maxFloors e ∧ maintenanceMode e = false
  ∧ first.1 = true ∧ second.1 = false.
Proof. vm_compute. repeat split; congruence. Qed.

(** C3 (amended): for an in-range floor and a car not in maintenance, a
    second [requestFloor] with the same floor and type leaves
    [internalRequests] and [externalRequests] exactly as the first call
    left them.  Both calls return [true] for the two hall kinds; for the
    car kind the second call returns [false], and the first returns [true]
    exactly when the floor was not already requested. *)
Theorem requestFloor_repress (e : Elevator) (floor : Z) (type : RequestType) :
  1 ≤ floor ≤ maxFloors e →
  maintenanceMode e = false →
  let first := requestFloor floor type false e in
  let second := requestFloor floor type false first.2 in
  internalRequests second.2 = internalRequests first.2
  ∧ externalRequests second.2 = externalRequests first.2
  ∧ (type ≠ INTERNAL → first.1 = true ∧ second.1 = true)
  ∧ (type = INTERNAL →
       second.1 = false ∧ (first.1 = true ↔ floor ∉ internalRequests e)).
Proof.
  intros Hrange Hmaint first second. subst second first.
  destruct type.
  - destruct (decide (floor ∈ internalRequests e)) as [Hold | Hnew].
    + rewrite (requestFloor_internal_again e floor) by done. simpl.
      rewrite (requestFloor_internal_again e floor) by done. simpl.
      repeat split; done.
    + rewrite (requestFloor_internal_new e floor) by done. simpl.
      rewrite requestFloor_internal_again; [| done | done |].
      2: { simpl. apply elem_of_union_l. by apply elem_of_singleton. }
      simpl.
      repeat split; done.
  - rewrite (requestFloor_external_up e floor) by done. simpl.
    rewrite requestFloor_external_up by done. simpl.
    rewrite press_twice by done. repeat split; done.
  - rewrite (requestFloor_external_down e floor) by done. simpl.
    rewrite requestFloor_external_down by done. simpl.
    rewrite press_twice by done. repeat split; done.
Qed.

Lemma requestFloor_repress_witness :
  let e := newElevator 1 10 5 in
  let up1 := requestFloor 4 EXTERNAL_UP false e in
  let up2 := requestFloor 4 EXTERNAL_UP false up1.2 in
  let car1 := requestFloor 4 INTERNAL false e in
  let car2 := requestFloor 4 INTERNAL false car1.2 in
  (externalRequests up2.2 = externalRequests up1.2
   ∧ up1.1 = true ∧ up2.1 = true)
  ∧ (internalRequests car2.2 = internalRequests car1.2
     ∧ car1.1 = true ∧ car2.1 = false).
Proof.
  intros e up1 up2 car1 car2.
  assert (1 ≤ 4 ≤ maxFloors e) as Hrange by (simpl; lia).
  assert (maintenanceMode e = false) as Hmaint by reflexivity.
  split.
  - destruct (requestFloor_repress e 4 EXTERNAL_UP Hrange Hmaint)
      as (_ & Hx & Hhall & _).
    split; [exact Hx |]. by apply Hhall.
  - destruct (requestFloor_repress e 4 INTERNAL Hrange Hmaint)
      as (Hi & _ & _ & Hcar).
    split; [exact Hi |]. destruct (Hcar eq_refl) as [Hsecond Hfirst].
    split; [| exact Hsecond]. apply Hfirst. apply not_elem_of_empty.
Defined.

(** C10: an emergency request with an in-range floor is accepted whatever
    the maintenance latch says, and the car it leaves behind is the old car
    with [emergencyStop] set and one log record added.  Neither the floor
    nor the request type appears in the result, the two request collections
    are untouched, and the wake-up predicate of the control thread holds. *)
Theorem requestFloor_emergency (e : Elevator) (floor : Z) (type : RequestType) :
  1 ≤ floor ≤ maxFloors e →
  let r := requestFloor floor type true e in
  r = (true, logEvent EvEmergencyRequest (set_emergencyStop true e))
  ∧ emergencyStop r.2 = true
  ∧ internalRequests r.2 = internalRequests e
  ∧ externalRequests r.2 = externalRequests e
  ∧ wake_condition r.2 = true.
Proof.
  intros Hrange r. subst r. unfold requestFloor.
  rewrite in_range_test by done.
  rewrite andb_false_r. simpl. repeat split; try done.
  unfold wake_condition. simpl. by rewrite !orb_true_r.
Qed.

Lemma requestFloor_emergency_witness :
  let e := setMaintenanceMode true (newElevator 1 10 5) in
  let r := requestFloor 4 INTERNAL true e in
  r = (true, logEvent EvEmergencyRequest (set_emergencyStop true e))
  ∧ emergencyStop r.2 = true
  ∧ internalRequests r.2 = internalRequests e
  ∧ externalRequests r.2 = externalRequests e
  ∧ wake_condition r.2 = true.
Proof.
  apply (requestFloor_emergency
           (setMaintenanceMode true (newElevator 1 10 5)) 4 INTERNAL).
  simpl. lia.
Defined.

(** ** Emergency handling *)

Section Emergency.

Implicit Types (e : Elevator) (calls : list ControlCall).

Lemma same_cabin_refl e : same_cabin e e.
Proof. by repeat split. Qed.

Lemma same_cabin_trans e1 e2 e3 :
  same_cabin e1 e2 → same_cabin e2 e3 → same_cabin e1 e3.
Proof. unfold same_cabin. intros (?&?&?&?) (?&?&?&?). repeat split; congruence. Qed.

Lemma deliver_same_cabin c e : same_cabin e (deliver c e).
Proof.
  destruct c as [| | | mode | floor type]; try (by repeat split).
  unfold deliver, requestFloor.
  case_bool_decide; [apply same_cabin_refl |].
  rewrite andb_false_r. by repeat split.
Qed.

Lemma poll_while_same_cabin latch calls e e' :
  poll_while latch calls e = Some e' → same_cabin e e'.
Proof.
  revert e. induction calls as [| c calls IH]; intros e; simpl.
  - destruct (latch e && running e); [done |].
    intros [= ->]. apply same_cabin_refl.
  - destruct (latch e && running e).
    + intros Hrest. eapply same_cabin_trans; [apply deliver_same_cabin |].
      by apply IH.
    + intros [= ->]. apply same_cabin_refl.
Qed.

(** When the wait is over, the latch is clear or the car was stopped. *)
Lemma poll_while_done latch calls e e' :
  poll_while latch calls e = Some e' → latch e' && running e' = false.
Proof.
  revert e. induction calls as [| c calls IH]; intros e; simpl.
  - destruct (latch e && running e) eqn:Hl; [done |]. by intros [= <-].
  - destruct (latch e && running e) eqn:Hl; [apply IH |]. by intros [= <-].
Qed.

(** The wait ends as soon as [resetEmergency] arrives. *)
Lemma poll_while_emergency_returns calls e :
  CallResetEmergency ∈ calls →
  is_Some (poll_while emergencyStop calls e).
Proof.
  revert e. induction calls as [| c calls IH]; intros e Hin.
  - by apply elem_of_nil in Hin.
  - simpl. destruct (emergencyStop e && running e) eqn:Hl; [| eauto].
    apply elem_of_cons in Hin as [<- | Hin].
    + simpl. destruct calls; simpl; eauto.
    + by apply IH.
Qed.

Lemma emergency_enter_same_cabin e : same_cabin e (emergency_enter e).
Proof.
  unfold emergency_enter.
  by destruct (_ && _); repeat split.
Qed.

Lemma emergency_enter_state e : state (emergency_enter e) = EMERGENCY_STOP.
Proof. unfold emergency_enter. by destruct (_ && _). Qed.

Lemma emergency_leave_same_cabin e : same_cabin e (emergency_leave e).
Proof. unfold emergency_leave. by destruct (running e); repeat split. Qed.

End Emergency.

(** C9: [handleEmergency] puts the car in [EMERGENCY_STOP]; once
    [resetEmergency] arrives it returns, and the car it returns has the
    same [internalRequests], [externalRequests], [currentFloor] and
    [currentPassengers] as the car it was called on.  If the car is still
    running the latch is clear, [state] is [IDLE] and [doorOpen] is
    [false], and pending requests make the control thread's wake-up
    predicate true. *)
Theorem handleEmergency_keeps_requests (calls : list ControlCall)
    (e : Elevator) :
  CallResetEmergency ∈ calls →
  state (emergency_enter e) = EMERGENCY_STOP
  ∧ ∃ e', handleEmergency calls e = Some e'
      ∧ internalRequests e' = internalRequests e
      ∧ externalRequests e' = externalRequests e
      ∧ currentFloor e' = currentFloor e
      ∧ currentPassengers e' = currentPassengers e
      ∧ (running e' = true →
           emergencyStop e' = false ∧ state e' = IDLE ∧ doorOpen e' = false)
      ∧ (pending e → wake_condition e' = true).
Proof.
  intros Hreset. split; [apply emergency_enter_state |].
  destruct (poll_while_emergency_returns calls (emergency_enter e) Hreset)
    as [e1 Hwait].
  exists (emergency_leave e1). unfold handleEmergency. rewrite Hwait.
  split; [done |].
  assert (same_cabin e (emergency_leave e1)) as (Hi & Hx & Hf & Hp).
  { eapply same_cabin_trans; [apply emergency_enter_same_cabin |].
    eapply same_cabin_trans; [by eapply poll_while_same_cabin |].
    apply emergency_leave_same_cabin. }
  repeat split; try done.
  - apply poll_while_done in Hwait. unfold emergency_leave in *.
    destruct (running e1) eqn:Hrun; simpl in *; [| congruence].
    by rewrite andb_true_r in Hwait.
  - unfold emergency_leave in *.
    destruct (running e1) eqn:Hrun; simpl in *; [done | congruence].
  - unfold emergency_leave in *.
    destruct (running e1) eqn:Hrun; simpl in *; [done | congruence].
  - intros Hpend. unfold wake_condition, hasExternalRequests.
    rewrite Hi, Hx. destruct Hpend as [Hne | Hhall].
    + by rewrite bool_decide_eq_false_2.
    + unfold hasExternalRequests in Hhall. rewrite Hhall.
      by rewrite orb_true_r.
Qed.

Lemma handleEmergency_keeps_requests_witness :
  let e := set_emergencyStop true
             (set_state MOVING_UP
                (set_currentFloor 4
                   (requestFloor 9 INTERNAL false (newElevator 1 10 5)).2)) in
  state (emergency_enter e) = EMERGENCY_STOP
  ∧ ∃ e', handleEmergency [CallNone; CallResetEmergency] e = Some e'
      ∧ internalRequests e' = internalRequests e
      ∧ externalRequests e' = externalRequests e
      ∧ currentFloor e' = currentFloor e
      ∧ currentPassengers e' = currentPassengers e
      ∧ (running e' = true →
           emergencyStop e' = false ∧ state e' = IDLE ∧ doorOpen e' = false)
      ∧ (pending e → wake_condition e' = true).
Proof.
  apply (handleEmergency_keeps_requests [CallNone; CallResetEmergency]).
  apply elem_of_cons. right. apply elem_of_cons. by left.
Defined.

(** ** Choosing a direction *)

Lemma direction_up (nextFloor cur : Z) :
  cur < nextFloor → direction nextFloor cur = MOVING_UP.
Proof. intros H. unfold direction. by rewrite bool_decide_eq_true_2. Qed.

Lemma direction_down (nextFloor cur : Z) :
  nextFloor ≤ cur → direction nextFloor cur = MOVING_DOWN.
Proof. intros H. unfold direction. rewrite bool_decide_eq_false_2; [done | lia]. Qed.

Lemma pending_test (e : Elevator) :
  pending e →
  negb (bool_decide (internalRequests e = ∅)) || hasExternalRequests e = true.
Proof.
  intros [Hne | Hhall].
  - by rewrite bool_decide_eq_false_2.
  - by rewrite Hhall, orb_true_r.
Qed.

(** Wherever the target is strictly above or strictly below the car, an
    idle car with pending requests is sent towards it, and [updateState]
    does the same whenever requests remain and a target exists. *)
Lemma direction_strict_target (e : Elevator) :
  pending e →
  (state e = IDLE →
     (currentFloor e < findNextFloor e →
        state (chooseDirection e) = MOVING_UP)
     ∧ (findNextFloor e < currentFloor e →
        state (chooseDirection e) = MOVING_DOWN))
  ∧ (findNextFloor e ≠ -1 →
     (currentFloor e < findNextFloor e → state (updateState e) = MOVING_UP)
     ∧ (findNextFloor e < currentFloor e →
        state (updateState e) = MOVING_DOWN)).
Proof.
  intros Hpend. split.
  - intros Hidle. unfold chooseDirection.
    rewrite bool_decide_eq_true_2 by done.
    rewrite pending_test by done. simpl.
    split; intros H.
    + by apply direction_up.
    + apply direction_down. lia.
  - intros Htarget. unfold updateState.
    replace (bool_decide (internalRequests e = ∅) && negb (hasExternalRequests e))
      with false.
    2: { apply pending_test in Hpend. symmetry.
         destruct (bool_decide _), (hasExternalRequests e); done. }
    rewrite bool_decide_eq_true_2 by done. simpl.
    split; intros H.
    + by apply direction_up.
    + apply direction_down. lia.
Qed.

(** C5 (the code departs from the claim): a fresh car at floor 1 that is
    asked for floor 1 is idle with a request pending, its target equals its
    floor, and [shouldStopAtCurrentFloor] already holds there.  The claim
    sends the car [MOVING_UP]; the ternary of [control] sends it
    [MOVING_DOWN], and the motion step that follows takes it to floor 0.
    The assignment of [updateState] gives [MOVING_DOWN] on the same car. *)
Theorem chooseDirection_equal_target_moves_down :
  let e := (requestFloor 1 INTERNAL false (newElevator 1 10 5)).2 in
  state e = IDLE ∧ pending e
  ∧ findNextFloor e = currentFloor e
  ∧ shouldStopAtCurrentFloor e = true
  ∧ state (chooseDirection e) = MOVING_DOWN
  ∧ state (chooseDirection e) ≠ MOVING_UP
  ∧ state (updateState e) = MOVING_DOWN
  ∧ currentFloor (move (chooseDirection e)) = 0.
Proof.
  vm_compute. repeat split; try congruence. left. discriminate.
Qed.

(** ** The stop cycle: passengers *)

Section Passengers.

Implicit Types (e : Elevator) (entering exiting : Z).

(** After the clamp of [entering] the head count is at most [capacity]
    as long as nobody "alights" a negative number of times, so the test
    that raises [overloaded] is never true. *)
Lemma simulatePassengers_overloaded e entering exiting :
  0 ≤ exiting →
  overloaded (simulatePassengers entering exiting e) = overloaded e.
Proof.
  intros Hex. unfold simulatePassengers. simpl.
  rewrite bool_decide_eq_false_2; [done | lia].
Qed.

Lemma simulatePassengers_count e entering exiting :
  0 ≤ exiting →
  currentPassengers (simulatePassengers entering exiting e)
  = currentPassengers e
    + Z.min entering (capacity e - currentPassengers e) - exiting.
Proof.
  intros Hex. unfold simulatePassengers. simpl.
  rewrite bool_decide_eq_false_2; [simpl; lia | lia].
Qed.

Lemma simulatePassengers_events e entering exiting :
  0 ≤ exiting →
  events (simulatePassengers entering exiting e)
  = events e
    ++ [EvPassengers (Z.min entering (capacity e - currentPassengers e))
          exiting
          (currentPassengers e
           + Z.min entering (capacity e - currentPassengers e) - exiting)
          (capacity e)].
Proof.
  intros Hex. unfold simulatePassengers. simpl.
  rewrite bool_decide_eq_false_2; [| lia]. simpl.
  do 3 f_equal. lia.
Qed.

(** [processStop] touches the request collections and [totalTrips]. *)
Lemma processStop_frame e :
  overloaded (processStop e) = overloaded e
  ∧ events (processStop e) = events e
  ∧ currentPassengers (processStop e) = currentPassengers e
  ∧ currentFloor (processStop e) = currentFloor e
  ∧ state (processStop e) = state e.
Proof.
  unfold processStop. simpl.
  destruct (externalRequests e !! currentFloor e) as [p |]; simpl;
    [by destruct (negb _ && negb _) | done].
Qed.

Lemma openDoors_frame e entering exiting :
  0 ≤ exiting →
  overloaded (openDoors entering exiting e) = overloaded e
  ∧ events (openDoors entering exiting e)
    = events e
      ++ [EvDoorsOpened (currentFloor e);
          EvPassengers (Z.min entering (capacity e - currentPassengers e))
            exiting
            (currentPassengers e
             + Z.min entering (capacity e - currentPassengers e) - exiting)
            (capacity e)]
  ∧ currentPassengers (openDoors entering exiting e)
    = currentPassengers e
      + Z.min entering (capacity e - currentPassengers e) - exiting.
Proof.
  intros Hex. unfold openDoors.
  rewrite simulatePassengers_overloaded, simulatePassengers_events,
    simulatePassengers_count by done.
  simpl. by rewrite <- app_assoc.
Qed.

Lemma closeDoors_frame e :
  currentPassengers (closeDoors e) = currentPassengers e
  ∧ overloaded (closeDoors e) = false
  ∧ events (closeDoors e)
    = events e
      ++ (if overloaded e then [EvOverloadWarning] else [])
      ++ [EvDoorsClosed].
Proof.
  unfold closeDoors. destruct (overloaded e) eqn:Hov; simpl; [| done].
  by rewrite <- app_assoc.
Qed.

(** The log of a stop cycle on a car whose [overloaded] flag is clear:
    doors opened, head count, doors closed, and no overload warning. *)
Lemma stopCycle_events e entering exiting :
  0 ≤ exiting → overloaded e = false →
  events (stopCycle entering exiting e)
  = events e
    ++ [EvDoorsOpened (currentFloor e);
        EvPassengers (Z.min entering (capacity e - currentPassengers e))
          exiting
          (currentPassengers e
           + Z.min entering (capacity e - currentPassengers e) - exiting)
          (capacity e);
        EvDoorsClosed].
Proof.
  intros Hex Hov. unfold stopCycle.
  destruct (closeDoors_frame (processStop (openDoors entering exiting e)))
    as (_ & _ & ->).
  destruct (processStop_frame (openDoors entering exiting e))
    as (-> & -> & _).
  destruct (openDoors_frame e entering exiting Hex) as (-> & -> & _).
  rewrite Hov. by rewrite <- app_assoc.
Qed.

Lemma stopCycle_passengers e entering exiting :
  0 ≤ exiting →
  currentPassengers (stopCycle entering exiting e)
  = currentPassengers e
    + Z.min entering (capacity e - currentPassengers e) - exiting.
Proof.
  intros Hex. unfold stopCycle.
  destruct (closeDoors_frame (processStop (openDoors entering exiting e)))
    as (-> & _).
  destruct (processStop_frame (openDoors entering exiting e))
    as (_ & _ & -> & _).
  by destruct (openDoors_frame e entering exiting Hex) as (_ & _ & ->).
Qed.

Lemma stopCycle_overloaded e entering exiting :
  overloaded (stopCycle entering exiting e) = false.
Proof. unfold stopCycle. apply closeDoors_frame. Qed.

End Passengers.

(** C2 (as stated, refuted): capacity 2, one passenger on board, the draws
    are 5 boarding and 1 alighting.  More boarding is asked for than the
    one free place, yet [overloaded] stays clear, the log of the stop cycle
    has no overload warning, and the car ends with 1 passenger, not 2. *)
Lemma stopCycle_overload_not_raised :
  let e := set_currentPassengers 1 (set_currentFloor 3 (newElevator 1 10 2)) in
  valid_draw e 5 1
  ∧ capacity e - currentPassengers e < 5
  ∧ overloaded (openDoors 5 1 e) = false
  ∧ events (stopCycle 5 1 e)
    = [EvDoorsOpened 3; EvPassengers 1 1 1 2; EvDoorsClosed]
  ∧ currentPassengers (stopCycle 5 1 e) = 1
  ∧ currentPassengers (stopCycle 5 1 e) ≠ capacity e.
Proof. vm_compute. repeat split; congruence. Qed.

(** C2 (amended): when the draw asks for more boarding than
    [capacity - currentPassengers] (and does not ask for a negative number
    of passengers to alight), boarding is clamped to exactly that
    difference (the head-count record of the stop shows it) and the car
    ends the stop cycle with [capacity - exiting] passengers, which is
    [capacity] when nobody alights.  With capacity 2, no passenger and the
    draws (5, 0), 2 board and the car ends with 2 passengers. *)
Theorem stopCycle_boarding_clamped (e : Elevator) (entering exiting : Z) :
  0 ≤ exiting →
  capacity e - currentPassengers e < entering →
  let e' := stopCycle entering exiting e in
  currentPassengers e' = capacity e - exiting
  ∧ EvPassengers (capacity e - currentPassengers e) exiting
      (capacity e - exiting) (capacity e) ∈ events e'
  ∧ (exiting = 0 → currentPassengers e' = capacity e)
  ∧ (let e2 := set_currentFloor 3 (newElevator 1 10 2) in
     currentPassengers (stopCycle 5 0 e2) = 2
     ∧ EvPassengers 2 0 2 2 ∈ events (stopCycle 5 0 e2)).
Proof.
  intros Hex Hmore e'. subst e'.
  assert (Z.min entering (capacity e - currentPassengers e)
          = capacity e - currentPassengers e) as Hmin by lia.
  repeat split.
  - rewrite stopCycle_passengers by done. lia.
  - unfold stopCycle.
    destruct (closeDoors_frame (processStop (openDoors entering exiting e)))
      as (_ & _ & ->).
    destruct (processStop_frame (openDoors entering exiting e))
      as (_ & -> & _).
    destruct (openDoors_frame e entering exiting Hex) as (_ & -> & _).
    rewrite Hmin. apply elem_of_app. left. apply elem_of_app. right.
    apply elem_of_cons. right. apply elem_of_cons. left. f_equal. lia.
  - intros ->. rewrite stopCycle_passengers by done. lia.
  - apply elem_of_cons. right. apply elem_of_cons. by left.
Qed.

Lemma stopCycle_boarding_clamped_witness :
  let e := set_currentPassengers 1 (set_currentFloor 3 (newElevator 1 10 2)) in
  let e' := stopCycle 5 1 e in
  currentPassengers e' = capacity e - 1
  ∧ EvPassengers (capacity e - currentPassengers e) 1
      (capacity e - 1) (capacity e) ∈ events e'
  ∧ (1 = 0 → currentPassengers e' = capacity e)
  ∧ (let e2 := set_currentFloor 3 (newElevator 1 10 2) in
     currentPassengers (stopCycle 5 0 e2) = 2
     ∧ EvPassengers 2 0 2 2 ∈ events (stopCycle 5 0 e2)).
Proof.
  apply (stopCycle_boarding_clamped
           (set_currentPassengers 1 (set_currentFloor 3 (newElevator 1 10 2)))
           5 1).
  - lia.
  - simpl. lia.
Defined.

(** ** The stop cycle: hall calls *)

Section HallCalls.

Implicit Types (e : Elevator) (entering exiting : Z).

Lemma simulatePassengers_cabin e entering exiting :
  state (simulatePassengers entering exiting e) = state e
  ∧ currentFloor (simulatePassengers entering exiting e) = currentFloor e
  ∧ externalRequests (simulatePassengers entering exiting e)
    = externalRequests e
  ∧ internalRequests (simulatePassengers entering exiting e)
    = internalRequests e.
Proof. unfold simulatePassengers. simpl. by destruct (bool_decide _). Qed.

Lemma openDoors_cabin e entering exiting :
  state (openDoors entering exiting e) = DOORS_OPEN
  ∧ currentFloor (openDoors entering exiting e) = currentFloor e
  ∧ externalRequests (openDoors entering exiting e) = externalRequests e
  ∧ internalRequests (openDoors entering exiting e) = internalRequests e.
Proof.
  unfold openDoors. cbv zeta.
  set (e2 := logEvent _ _).
  by destruct (simulatePassengers_cabin e2 entering exiting)
    as (-> & -> & -> & ->).
Qed.

Lemma closeDoors_cabin e :
  state (closeDoors e) = state e
  ∧ currentFloor (closeDoors e) = currentFloor e
  ∧ externalRequests (closeDoors e) = externalRequests e
  ∧ internalRequests (closeDoors e) = internalRequests e.
Proof. unfold closeDoors. by destruct (overloaded e). Qed.

(** With the doors open, [processStop] erases the whole hall entry of the
    current floor. *)
Lemma processStop_doors_open e :
  state e = DOORS_OPEN →
  externalRequests (processStop e) = delete (currentFloor e) (externalRequests e).
Proof.
  intros Hst. unfold processStop. simpl. rewrite Hst.
  destruct (externalRequests e !! currentFloor e) as [p |] eqn:Hp; simpl.
  - done.
  - symmetry. by apply delete_id.
Qed.

(** [processStop] on a car that is still moving up keeps the down bit. *)
Lemma processStop_moving_up e (up down : bool) :
  state e = MOVING_UP →
  externalRequests e !! currentFloor e = Some (up, down) →
  externalRequests (processStop e) !! currentFloor e
  = if down then Some (false, true) else @None (bool * bool).
Proof.
  intros Hst Hp. unfold processStop. simpl. rewrite Hst, Hp. simpl.
  destruct down; simpl.
  - by rewrite lookup_insert_eq.
  - by rewrite lookup_delete_eq.
Qed.

(** Whatever the direction of travel, the stop cycle leaves no hall entry
    at the floor of the stop: [openDoors] has overwritten [state] before
    [processStop] looks at it. *)
Lemma stopCycle_erases_hall_entry e entering exiting :
  externalRequests (stopCycle entering exiting e)
  = delete (currentFloor e) (externalRequests e).
Proof.
  unfold stopCycle.
  destruct (closeDoors_cabin (processStop (openDoors entering exiting e)))
    as (_ & _ & -> & _).
  destruct (openDoors_cabin e entering exiting) as (Hst & Hfl & Hx & _).
  rewrite processStop_doors_open by done. by rewrite Hfl, Hx.
Qed.

End HallCalls.

(** C1 (the code departs from the claim): a fresh car receives the up and
    the down hall call of floor 2.  One iteration of the control loop sends
    it up to floor 2, where it stops while moving up; the stop cycle erases
    the whole entry, so the down call is gone and the car goes idle.
    [processStop] alone, on the car as it arrives, would keep the down
    bit. *)
Theorem stopCycle_moving_up_loses_down_call :
  let e := (requestFloor 2 EXTERNAL_DOWN false
              (requestFloor 2 EXTERNAL_UP false (newElevator 1 10 5)).2).2 in
  let arrived := move (chooseDirection e) in
  state arrived = MOVING_UP ∧ currentFloor arrived = 2
  ∧ externalRequests arrived !! 2 = Some (true, true)
  ∧ shouldStopAtCurrentFloor arrived = true
  ∧ externalRequests (processStop arrived) !! 2 = Some (false, true)
  ∧ externalRequests (stopCycle 0 0 arrived) !! 2 = None
  ∧ ∃ e', control_iteration [] 0 0 e = Continue e'
      ∧ currentFloor e' = 2 ∧ state e' = IDLE ∧ externalRequests e' = ∅.
Proof.
  vm_compute. repeat split; try congruence.
  eexists. repeat split; reflexivity.
Qed.

(** ** The floor of the car *)

(** C4 (the code departs from the claim): a fresh car with ten floors
    accepts the car call of floor 1, the floor it stands on.  The target
    equals the current floor, the idle car is sent down, and one iteration
    of the control loop leaves it at floor 0, outside [1, maxFloors]. *)
Theorem control_iteration_leaves_shaft :
  let e0 := newElevator 1 10 5 in
  let r := requestFloor 1 INTERNAL false e0 in
  currentFloor e0 = 1 ∧ r.1 = true
  ∧ state (chooseDirection r.2) = MOVING_DOWN
  ∧ ∃ e', control_iteration [] 0 0 r.2 = Continue e'
      ∧ currentFloor e' = 0
      ∧ ¬ (1 ≤ currentFloor e' ≤ maxFloors e').
Proof.
  vm_compute. repeat split; try congruence.
  eexists. repeat split; try reflexivity. intros [H _]. by apply H.
Qed.

(** ** The dispatcher *)

Section Dispatcher.

Implicit Types (e : Elevator) (sys : ElevatorControlSystem).
Implicit Types (floor : Z) (type : RequestType).

Lemma calculateElevatorScore_latched e floor type :
  isEmergency e || isInMaintenance e = true →
  calculateElevatorScore e floor type = INT_MAX.
Proof. intros H. unfold calculateElevatorScore. by rewrite H. Qed.

Lemma calculateElevatorScore_unlatched e floor type :
  calculateElevatorScore e floor type < INT_MAX →
  emergencyStop e = false ∧ maintenanceMode e = false.
Proof.
  unfold calculateElevatorScore, isEmergency, isInMaintenance.
  destruct (emergencyStop e), (maintenanceMode e); simpl; try lia.
Qed.

(** The loop keeps the first car whose score is strictly below every
    score seen before it; with no such car it keeps the index it was
    started with. *)
Lemma findBest_loop_spec (es : list Elevator) floor type :
  ∀ (i bestIndex : nat) (bestScore : Z),
    (findBest_loop es i floor type bestIndex bestScore = bestIndex
     ∧ ∀ e, e ∈ es → bestScore ≤ calculateElevatorScore e floor type)
    ∨ ∃ (k : nat) e,
        findBest_loop es i floor type bestIndex bestScore = (i + k)%nat
        ∧ es !! k = Some e
        ∧ calculateElevatorScore e floor type < bestScore.
Proof.
  induction es as [| e es IH]; intros i bestIndex bestScore; simpl.
  - left. split; [done |]. intros e He. by apply elem_of_nil in He.
  - case_bool_decide as Hlt.
    + right.
      destruct (IH (S i) i (calculateElevatorScore e floor type))
        as [[-> Hall] | (k & e' & -> & Hk & Hlt')].
      * exists 0%nat, e. split; [lia | by split].
      * exists (S k), e'. split; [lia | split; [done | lia]].
    + destruct (IH (S i) bestIndex bestScore)
        as [[-> Hall] | (k & e' & -> & Hk & Hlt')].
      * left. split; [done |]. intros e' He'.
        apply elem_of_cons in He' as [-> | He']; [lia | by apply Hall].
      * right. exists (S k), e'. split; [lia | by split].
Qed.

(** As long as one car of the fleet scores below [INT_MAX], the car the
    request is handed to carries no latch. *)
Lemma chosen_car_unlatched sys floor type e :
  e ∈ elevators sys →
  calculateElevatorScore e floor type < INT_MAX →
  ∃ car, chosen_car sys floor type = Some car
    ∧ emergencyStop car = false ∧ maintenanceMode car = false.
Proof.
  intros He Hscore. unfold chosen_car, findBestElevator.
  destruct (findBest_loop_spec (elevators sys) floor type 0 0 INT_MAX)
    as [[_ Hall] | (k & car & -> & Hk & Hlt)].
  - specialize (Hall e He). lia.
  - exists car. split; [done |].
    by eapply calculateElevatorScore_unlatched.
Qed.

End Dispatcher.



(** C8 (the code departs from the claim): an emergency broadcast latches
    both cars of a two-car fleet, so both score [INT_MAX].  No score is
    strictly below the initial best score, the loop returns index 0, and
    the following plain request for floor 3 is handed to the first car,
    which is latched and takes the floor into its car calls. *)
Theorem requestElevator_all_latched_forwards_to_first :
  let sys1 := requestElevator 4 INTERNAL true (-1) (newSystem 2 10 5) in
  let sys2 := requestElevator 3 INTERNAL false (-1) sys1 in
  (∀ e, e ∈ elevators sys1 →
     emergencyStop e = true ∧ calculateElevatorScore e 3 INTERNAL = INT_MAX)
  ∧ findBestElevator sys1 3 INTERNAL = 0%nat
  ∧ (∃ car, chosen_car sys1 3 INTERNAL = Some car
       ∧ emergencyStop car = true ∧ elements (internalRequests car) = [])
  ∧ (∃ car, elevators sys2 !! 0%nat = Some car
       ∧ emergencyStop car = true ∧ elements (internalRequests car) = [3]).
Proof.
  intros sys1 sys2. split; [| split; [| split]].
  - intros e He.
    apply elem_of_cons in He as [-> | He]; [by split |].
    apply elem_of_cons in He as [-> | He]; [by split |].
    by apply elem_of_nil in He.
  - reflexivity.
  - eexists. split; [reflexivity |]. by split.
  - eexists. split; [reflexivity |]. by split.
Qed.

(** ** The next target *)

Section NextTarget.

Implicit Types (e : Elevator) (l : list Z) (k : Z).
Implicit Types (reqs : list (Z * (bool * bool))).

Lemma upper_bound_Some l k (i : nat) (x : Z) :
  StronglySorted Z.le l →
  upper_bound k l = Some (i, x) →
  x ∈ l ∧ k < x ∧ ∀ y, y ∈ l → k < y → x ≤ y.
Proof.
  intros Hs Hfind. apply list_find_Some in Hfind as (Hi & Hx & Hbefore).
  split; [by eapply list_elem_of_lookup_2 |]. split; [done |].
  intros y Hy Hky. apply list_elem_of_lookup in Hy as [j Hj].
  destruct (decide (j < i)%nat) as [Hlt | Hge].
  - by destruct (Hbefore j y Hj Hlt).
  - eapply (sorted_lookup_le l i j); eauto. lia.
Qed.

Lemma upper_bound_None l k :
  upper_bound k l = None → ∀ y, y ∈ l → y ≤ k.
Proof.
  intros Hfind y Hy. apply list_find_None in Hfind.
  rewrite Forall_forall in Hfind. specialize (Hfind y Hy). simpl in Hfind. lia.
Qed.

(** The element before the [lower_bound] position is the greatest one
    below [k]; at position 0 nothing is below [k]. *)
Lemma lower_bound_spec l k :
  StronglySorted Z.le l →
  match lower_bound k l with
  | O => ∀ y, y ∈ l → k ≤ y
  | S i => ∃ x, l !! i = Some x ∧ x < k ∧ ∀ y, y ∈ l → y < k → y ≤ x
  end.
Proof.
  intros Hs. unfold lower_bound.
  destruct (list_find (λ x, k ≤ x) l) as [[j z] |] eqn:Hfind.
  - apply list_find_Some in Hfind as (Hj & Hz & Hbefore).
    destruct j as [| i].
    + intros y Hy. apply list_elem_of_lookup in Hy as [j' Hj'].
      pose proof (sorted_lookup_le l 0 j' z y Hs Hj Hj'). lia.
    + destruct (lookup_lt_is_Some_2 l i) as [x Hx].
      { apply lookup_lt_Some in Hj. lia. }
      exists x. split; [done |]. split.
      { specialize (Hbefore i x Hx). simpl in Hbefore. lia. }
      intros y Hy Hyk. apply list_elem_of_lookup in Hy as [j' Hj'].
      destruct (decide (j' ≤ i)%nat) as [Hle | Hgt].
      * by apply (sorted_lookup_le l j' i).
      * pose proof (sorted_lookup_le l (S i) j' z y Hs Hj Hj'). lia.
  - apply list_find_None in Hfind. rewrite Forall_forall in Hfind.
    destruct (length l) as [| i] eqn:Hlen.
    + apply length_zero_iff_nil in Hlen as ->.
      intros y Hy. by apply elem_of_nil in Hy.
    + destruct (lookup_lt_is_Some_2 l i) as [x Hx]; [lia |].
      exists x. split; [done |]. split.
      { assert (x ∈ l) as Hin by by eapply list_elem_of_lookup_2.
        specialize (Hfind x Hin). simpl in Hfind. lia. }
      intros y Hy _. apply list_elem_of_lookup in Hy as [j' Hj'].
      apply (sorted_lookup_le l j' i); try done.
      apply lookup_lt_Some in Hj'. lia.
Qed.

(** One pass of the closest-floor loop over entries in key order.
    Either nothing beat the starting distance and the pair is unchanged,
    or the pair is an entry that satisfies the condition, is strictly
    closer than the start, is nearest among the entries that satisfy the
    condition, and has the lowest floor among the nearest. *)
Lemma closest_scan_spec (cond : Z * (bool * bool) → bool) (cur : Z) reqs :
  StronglySorted key_le reqs →
  ∀ minDistance closestFloor,
    (closest_scan cond cur reqs minDistance closestFloor
     = (minDistance, closestFloor)
     ∧ ∀ req, req ∈ reqs → cond req = true → minDistance ≤ distance cur req)
    ∨ ∃ best,
        best ∈ reqs ∧ cond best = true
        ∧ closest_scan cond cur reqs minDistance closestFloor
          = (distance cur best, best.1)
        ∧ distance cur best < minDistance
        ∧ ∀ req, req ∈ reqs → cond req = true →
            distance cur best ≤ distance cur req
            ∧ (distance cur req = distance cur best → best.1 ≤ req.1).
Proof.
  induction 1 as [| r reqs Hs IH Hall]; intros minDistance closestFloor.
  - left. split; [done |]. intros req Hreq. by apply elem_of_nil in Hreq.
  - rewrite Forall_forall in Hall. simpl. fold (distance cur r).
    destruct (cond r && bool_decide (distance cur r < minDistance)) eqn:Htest.
    + apply andb_prop in Htest as [Hcond Hlt].
      apply bool_decide_eq_true in Hlt. right.
      destruct (IH (distance cur r) r.1)
        as [[-> Hmin] | (best & Hin & Hc & -> & Hcloser & Hbest)].
      * exists r. split; [by left |]. do 3 (split; [done |]).
        intros req Hreq Hcreq.
        apply elem_of_cons in Hreq as [-> | Hreq]; [lia |].
        split; [by apply Hmin |]. intros _. by apply Hall.
      * exists best. split; [by right |]. split; [done |].
        split; [done |]. split; [lia |].
        intros req Hreq Hcreq.
        apply elem_of_cons in Hreq as [-> | Hreq]; [lia | by apply Hbest].
    + destruct (IH minDistance closestFloor)
        as [[-> Hmin] | (best & Hin & Hc & -> & Hcloser & Hbest)].
      * left. split; [done |]. intros req Hreq Hcreq.
        apply elem_of_cons in Hreq as [-> | Hreq]; [| by apply Hmin].
        rewrite Hcreq in Htest. simpl in Htest.
        apply bool_decide_eq_false in Htest. lia.
      * right. exists best. split; [by right |]. do 3 (split; [done |]).
        intros req Hreq Hcreq.
        apply elem_of_cons in Hreq as [-> | Hreq]; [| by apply Hbest].
        rewrite Hcreq in Htest. simpl in Htest.
        apply bool_decide_eq_false in Htest. lia.
Qed.

End NextTarget.

(** A value in the range of [int] is not changed by the wrap-around. *)
Lemma int_wrap_id (z : Z) : INT_MIN ≤ z ≤ INT_MAX → int_wrap z = z.
Proof.
  unfold int_wrap, INT_MIN, INT_MAX. intros Hz.
  rewrite Z.mod_small; lia.
Qed.

(** In a building of at least -1 and fewer than [INT_MAX] floors the
    starting distance of [findNextFloor] is [maxFloors + 1]. *)
Lemma sentinel_no_wrap (e : Elevator) :
  -1 ≤ maxFloors e → maxFloors e < INT_MAX →
  int_wrap (maxFloors e + 1) = maxFloors e + 1.
Proof.
  intros Hlo Hhi. apply int_wrap_id. unfold INT_MIN, INT_MAX in *. lia.
Qed.

Section FindNextFloor.

Implicit Types (e : Elevator).

Lemma findNextFloor_internal e :
  internalRequests e ≠ ∅ →
  findNextFloor e ∈ internalRequests e
  ∧ (state e = MOVING_UP →
     ∀ x, x ∈ internalRequests e → currentFloor e < x →
       currentFloor e < findNextFloor e ∧ findNextFloor e ≤ x)
  ∧ (state e = MOVING_DOWN →
     ∀ x, x ∈ internalRequests e → x < currentFloor e →
       findNextFloor e < currentFloor e ∧ x ≤ findNextFloor e)
  ∧ ((state e = MOVING_UP →
        ∀ x, x ∈ internalRequests e → x ≤ currentFloor e) →
     (state e = MOVING_DOWN →
        ∀ x, x ∈ internalRequests e → currentFloor e ≤ x) →
     ∀ x, x ∈ internalRequests e → findNextFloor e ≤ x).
Proof.
  intros Hne. unfold findNextFloor.
  pose proof (floors_in_order_sorted (internalRequests e)) as Hs.
  assert (∀ x, x ∈ floors_in_order (internalRequests e)
               ↔ x ∈ internalRequests e) as Hmem
    by (intros x; apply elem_of_floors_in_order).
  destruct (floors_in_order (internalRequests e)) as [| first s] eqn:Hl.
  { by apply floors_in_order_nil in Hl. }
  assert (first ∈ internalRequests e) as Hfirst by (apply Hmem; by left).
  assert (∀ x, x ∈ internalRequests e → first ≤ x) as Hleast.
  { intros x Hx. apply (sorted_head_least first x s Hs). by apply Hmem. }
  destruct (state e) eqn:Hst;
    try (split; [done |]; split; [done |]; split; [done |];
         intros _ _; exact Hleast).
  - (* MOVING_UP *)
    destruct (upper_bound (currentFloor e) (first :: s)) as [[i x] |] eqn:Hub.
    + apply upper_bound_Some in Hub as (Hin & Hgt & Hmin); [| done].
      split; [by apply Hmem |]. split; [| split; [done |]].
      * intros _ y Hy Hcy. split; [done |]. apply Hmin; [by apply Hmem | done].
      * intros Hnone _ y Hy. specialize (Hnone eq_refl x).
        apply Hmem in Hin. specialize (Hnone Hin). lia.
    + pose proof (upper_bound_None _ _ Hub) as Hnone.
      split; [done |]. split; [| split; [done |]].
      * intros _ y Hy Hcy. apply Hmem in Hy. specialize (Hnone y Hy). lia.
      * intros _ _. exact Hleast.
  - (* MOVING_DOWN *)
    pose proof (lower_bound_spec (first :: s) (currentFloor e) Hs) as Hlb.
    destruct (lower_bound (currentFloor e) (first :: s)) as [| i].
    + split; [done |]. split; [done |]. split.
      * intros _ y Hy Hyc. apply Hmem in Hy. specialize (Hlb y Hy). lia.
      * intros _ _. exact Hleast.
    + destruct Hlb as (x & Hx & Hlt & Hmax). rewrite Hx. simpl.
      assert (x ∈ internalRequests e) as Hin.
      { apply Hmem. by eapply list_elem_of_lookup_2. }
      split; [done |]. split; [done |]. split.
      * intros _ y Hy Hyc. split; [done |]. apply Hmax; [by apply Hmem | done].
      * intros _ Hnone y Hy. specialize (Hnone eq_refl x Hin). lia.
Qed.

(** With car calls present the hall calls play no part. *)
Lemma findNextFloor_ignores_hall e (m : gmap Z (bool * bool)) :
  internalRequests e ≠ ∅ →
  findNextFloor (set_externalRequests m e) = findNextFloor e.
Proof.
  intros Hne. unfold findNextFloor. simpl.
  destruct (floors_in_order (internalRequests e)) as [| first s] eqn:Hl.
  - by apply floors_in_order_nil in Hl.
  - done.
Qed.

Lemma findNextFloor_hall e f :
  internalRequests e = ∅ →
  floors_in_shaft e →
  hall_on_the_way e f →
  hall_on_the_way e (findNextFloor e)
  ∧ ∀ f', hall_on_the_way e f' →
      Z.abs (findNextFloor e - currentFloor e) ≤ Z.abs (f' - currentFloor e)
      ∧ (Z.abs (f' - currentFloor e) = Z.abs (findNextFloor e - currentFloor e)
         → findNextFloor e ≤ f').
Proof.
  intros Hempty (Hkeys & Hcur & Hint) (p & Hp & Hway). unfold findNextFloor.
  rewrite Hempty. change (floors_in_order ∅) with (@nil Z). cbv zeta.
  rewrite sentinel_no_wrap by (done || lia).
  destruct (closest_scan_spec (on_the_way (currentFloor e)) (currentFloor e)
              (requests_in_order (externalRequests e))
              (requests_in_order_sorted _) (maxFloors e + 1) (-1))
    as [[_ Hmin] | ([r q] & Hin & Hc & -> & Hcloser & Hbest)].
  - (* impossible: the entry at [f] is closer than [maxFloors + 1] *)
    exfalso. specialize (Hmin (f, p)).
    rewrite elem_of_requests_in_order in Hmin.
    specialize (Hmin Hp Hway). unfold distance in Hmin. simpl in Hmin.
    pose proof (Hkeys f p Hp) as Hf. simpl in Hf. lia.
  - apply elem_of_requests_in_order in Hin. simpl.
    pose proof (Hkeys r q Hin) as Hr. simpl in Hr.
    rewrite bool_decide_eq_true_2 by lia.
    split; [by exists q |].
    intros f' (p' & Hp' & Hway').
    specialize (Hbest (f', p')).
    rewrite elem_of_requests_in_order in Hbest.
    specialize (Hbest Hp' Hway'). unfold distance in Hbest. simpl in Hbest.
    done.
Qed.

End FindNextFloor.

(** C6: with car calls present [findNextFloor] answers a car call whatever
    the hall calls are: moving up, the smallest call strictly above
    [currentFloor]; moving down, the largest call strictly below it; and
    when there is no call in the direction of travel, the smallest call of
    all.  Hall calls are considered only when there is no car call, and
    then, in a building of fewer than [INT_MAX] floors ([floors_in_shaft]:
    the starting distance [maxFloors + 1] is an [int]), if some pressed
    floor is on the way, the answer is an on-the-way floor at minimal
    distance from [currentFloor], the lowest such floor in case of a tie. *)
Theorem findNextFloor_spec (e : Elevator) :
  (internalRequests e ≠ ∅ →
     findNextFloor e ∈ internalRequests e
     ∧ (∀ m, findNextFloor (set_externalRequests m e) = findNextFloor e)
     ∧ (state e = MOVING_UP →
        ∀ x, x ∈ internalRequests e → currentFloor e < x →
          currentFloor e < findNextFloor e ∧ findNextFloor e ≤ x)
     ∧ (state e = MOVING_DOWN →
        ∀ x, x ∈ internalRequests e → x < currentFloor e →
          findNextFloor e < currentFloor e ∧ x ≤ findNextFloor e)
     ∧ ((state e = MOVING_UP →
           ∀ x, x ∈ internalRequests e → x ≤ currentFloor e) →
        (state e = MOVING_DOWN →
           ∀ x, x ∈ internalRequests e → currentFloor e ≤ x) →
        ∀ x, x ∈ internalRequests e → findNextFloor e ≤ x))
  ∧ (internalRequests e = ∅ →
     floors_in_shaft e →
     ∀ f, hall_on_the_way e f →
       hall_on_the_way e (findNextFloor e)
       ∧ ∀ f', hall_on_the_way e f' →
           Z.abs (findNextFloor e - currentFloor e)
           ≤ Z.abs (f' - currentFloor e)
           ∧ (Z.abs (f' - currentFloor e)
              = Z.abs (findNextFloor e - currentFloor e)
              → findNextFloor e ≤ f')).
Proof.
  split.
  - intros Hne.
    destruct (findNextFloor_internal e Hne) as (Hin & Hup & Hdown & Hleast).
    split; [done |]. split; [| done].
    intros m. by apply findNextFloor_ignores_hall.
  - intros Hempty Hshaft f Hf. by apply (findNextFloor_hall e f).
Qed.

Lemma sample_car_in_shaft (s : gset Z) :
  floors_in_shaft (set_internalRequests s sample_car).
Proof.
  split; [| split].
  - simpl. apply map_Forall_insert_2; [lia |].
    apply map_Forall_insert_2; [lia |]. apply map_Forall_empty.
  - simpl. lia.
  - reflexivity.
Defined.

(** On [sample_car], moving up from floor 4, the target is the car call 6;
    without its car calls the two hall calls are both on the way at
    distance 1 and the target is the lower floor, 3. *)
Lemma findNextFloor_spec_witness :
  (findNextFloor sample_car ∈ internalRequests sample_car
   ∧ ∀ x, x ∈ internalRequests sample_car → 4 < x →
       4 < findNextFloor sample_car ∧ findNextFloor sample_car ≤ x)
  ∧ (let e := set_internalRequests ∅ sample_car in
     hall_on_the_way e (findNextFloor e)
     ∧ ∀ f', hall_on_the_way e f' →
         Z.abs (findNextFloor e - 4) ≤ Z.abs (f' - 4)
         ∧ (Z.abs (f' - 4) = Z.abs (findNextFloor e - 4)
            → findNextFloor e ≤ f')).
Proof.
  split.
  - destruct (findNextFloor_spec sample_car) as [Hcar _].
    destruct Hcar as (Hin & _ & Hup & _).
    + intros Hempty. assert (2 ∈ internalRequests sample_car) as H2.
      { apply elem_of_union_l, elem_of_union_l. by apply elem_of_singleton. }
      rewrite Hempty in H2. by apply not_elem_of_empty in H2.
    + split; [exact Hin |]. by apply Hup.
  - destruct (findNextFloor_spec (set_internalRequests ∅ sample_car))
      as [_ Hhall].
    apply (Hhall eq_refl (sample_car_in_shaft ∅) 5).
    exists (true, false). by split.
Defined.

Example findNextFloor_sample_up : findNextFloor sample_car = 6.
Proof. reflexivity. Qed.

Example findNextFloor_sample_down :
  findNextFloor (set_state MOVING_DOWN sample_car) = 2.
Proof. reflexivity. Qed.

Example findNextFloor_sample_hall :
  findNextFloor (set_internalRequests ∅ sample_car) = 3.
Proof. reflexivity. Qed.

(** At [maxFloors = INT_MAX] the starting distance [maxFloors + 1] wraps to
    [INT_MIN]; no entry is closer than that, and the answer is -1 although
    a hall call is pending.  Two iterations of the control loop then take
    the car from floor 1 to floor -1. *)
Example findNextFloor_sentinel_wraps :
  let e := (requestFloor 5 EXTERNAL_UP false (newElevator 1 INT_MAX 5)).2 in
  int_wrap (maxFloors e + 1) = INT_MIN
  ∧ hasExternalRequests e = true
  ∧ findNextFloor e = -1
  ∧ currentFloor (run [ActControl [] 0 0; ActControl [] 0 0] e) = -1.
Proof. vm_compute. by repeat split. Qed.

(** ** What does hold of the floor of the car *)

Section Shaft.

Implicit Types (e : Elevator).

Lemma hasExternalRequests_true e :
  hasExternalRequests e = true →
  ∃ f p, externalRequests e !! f = Some p ∧ pressed (f, p) = true.
Proof.
  unfold hasExternalRequests. intros Hex.
  apply existsb_exists in Hex as ([f p] & Hin & Hp).
  exists f, p. split; [| done].
  apply elem_of_requests_in_order. by apply list_elem_of_In.
Qed.

(** The answer of [findNextFloor] is a requested floor or -1. *)
Lemma findNextFloor_requested e :
  findNextFloor e = -1
  ∨ findNextFloor e ∈ internalRequests e
  ∨ is_Some (externalRequests e !! findNextFloor e).
Proof.
  destruct (decide (internalRequests e = ∅)) as [Hempty | Hne].
  - unfold findNextFloor.
    rewrite Hempty. change (floors_in_order ∅) with (@nil Z). cbv zeta.
    set (reqs := requests_in_order (externalRequests e)).
    generalize (int_wrap (maxFloors e + 1)). intros start.
    destruct (closest_scan_spec (on_the_way (currentFloor e)) (currentFloor e)
                reqs (requests_in_order_sorted _) start (-1))
      as [[-> _] | ([r q] & Hin & _ & -> & _)].
    + rewrite bool_decide_eq_false_2 by (intros H; by apply H).
      destruct (closest_scan_spec pressed (currentFloor e)
                  reqs (requests_in_order_sorted _) start (-1))
        as [[-> _] | ([r q] & Hin & _ & -> & _)]; simpl.
      * by left.
      * right. right. apply elem_of_requests_in_order in Hin. eauto.
    + apply elem_of_requests_in_order in Hin. simpl.
      case_bool_decide as Hr.
      * right. right. eauto.
      * destruct (closest_scan_spec pressed (currentFloor e)
                    reqs (requests_in_order_sorted _)
                    (distance (currentFloor e) (r, q)) r)
          as [[-> _] | ([r' q'] & Hin' & _ & -> & _)]; simpl.
        -- right. right. eauto.
        -- right. right. apply elem_of_requests_in_order in Hin'. eauto.
  - right. left. by apply findNextFloor_internal.
Qed.

Lemma findNextFloor_range e :
  floors_valid e →
  findNextFloor e = -1 ∨ 1 ≤ findNextFloor e ≤ maxFloors e.
Proof.
  intros (Hcar & Hhall & _).
  destruct (findNextFloor_requested e) as [Hnone | [Hin | [p Hp]]].
  - by left.
  - right. by apply Hcar.
  - right. apply (Hhall _ _ Hp).
Qed.

(** With requests pending there is a target. *)
Lemma findNextFloor_pending e :
  floors_valid e → pending e → 1 ≤ findNextFloor e ≤ maxFloors e.
Proof.
  intros Hvalid Hpend.
  destruct (findNextFloor_range e Hvalid) as [Hnone | Hrange]; [| done].
  exfalso. destruct Hvalid as (Hcar & Hhall & Hcur & Hint).
  destruct (decide (internalRequests e = ∅)) as [Hempty | Hne].
  - destruct Hpend as [Hne | Hex]; [done |].
    apply hasExternalRequests_true in Hex as (f & p & Hp & Hpressed).
    pose proof (Hhall f p Hp) as Hf. simpl in Hf.
    revert Hnone. unfold findNextFloor.
    rewrite Hempty. change (floors_in_order ∅) with (@nil Z). cbv zeta.
    rewrite sentinel_no_wrap by (done || lia).
    set (reqs := requests_in_order (externalRequests e)).
    destruct (closest_scan_spec (on_the_way (currentFloor e)) (currentFloor e)
                reqs (requests_in_order_sorted _) (maxFloors e + 1) (-1))
      as [[-> _] | ([r q] & Hin & _ & -> & _)].
    + rewrite bool_decide_eq_false_2 by (intros H; by apply H).
      destruct (closest_scan_spec pressed (currentFloor e)
                  reqs (requests_in_order_sorted _) (maxFloors e + 1) (-1))
        as [[_ Hmin] | ([r q] & Hin & _ & -> & _)]; simpl.
      * specialize (Hmin (f, p)). subst reqs.
        rewrite elem_of_requests_in_order in Hmin.
        specialize (Hmin Hp Hpressed). unfold distance in Hmin.
        simpl in Hmin. lia.
      * apply elem_of_requests_in_order in Hin.
        pose proof (Hhall r q Hin) as Hr. simpl in Hr. lia.
    + apply elem_of_requests_in_order in Hin.
      pose proof (Hhall r q Hin) as Hr. simpl in Hr. simpl.
      rewrite bool_decide_eq_true_2 by lia. lia.
  - pose proof (findNextFloor_internal e Hne) as [Hin _].
    specialize (Hcar _ Hin). lia.
Qed.

End Shaft.

Section ShaftInvariant.

Implicit Types (e : Elevator).

Lemma direction_heading e (target : Z) :
  1 ≤ target ≤ maxFloors e →
  0 ≤ currentFloor e ≤ maxFloors e →
  heading_valid (set_state (direction target (currentFloor e)) e).
Proof.
  intros Ht Hc. unfold heading_valid, direction. simpl.
  case_bool_decide; split; intros Hst; try done; lia.
Qed.

Lemma chooseDirection_inv e : shaft_inv e → shaft_inv (chooseDirection e).
Proof.
  intros [Hvalid Hhead]. unfold chooseDirection.
  case_bool_decide as Hidle; [| done].
  destruct (negb _ || _) eqn:Hwork; [| done].
  assert (pending e) as Hpend.
  { apply orb_prop in Hwork as [Hne | Hex]; [left | by right].
    apply negb_true_iff, bool_decide_eq_false in Hne. done. }
  split; [exact Hvalid |].
  apply direction_heading; [by apply findNextFloor_pending | apply Hvalid].
Qed.

Lemma move_valid e : shaft_inv e → floors_valid (move e).
Proof.
  intros [(Hcar & Hhall & Hcur) [Hup Hdown]]. unfold move.
  destruct (state e) eqn:Hst; try done.
  - rewrite bool_decide_eq_true_2 by done. specialize (Hup eq_refl).
    split; [exact Hcar | split; [exact Hhall | simpl; lia]].
  - rewrite bool_decide_eq_false_2 by done. specialize (Hdown eq_refl).
    split; [exact Hcar | split; [exact Hhall | simpl; lia]].
Qed.

Lemma processStop_valid e : floors_valid e → floors_valid (processStop e).
Proof.
  intros (Hcar & Hhall & Hcur). unfold processStop. simpl.
  assert (∀ x, x ∈ internalRequests e ∖ {[currentFloor e]}
               → 1 ≤ x ≤ maxFloors e) as Hcar'.
  { intros x Hx. apply Hcar. by apply elem_of_difference in Hx as [Hx _]. }
  destruct (externalRequests e !! currentFloor e) as [p |] eqn:Hp; simpl.
  - destruct (negb _ && negb _); simpl;
      (split; [exact Hcar' | split; [| exact Hcur]]); simpl.
    + by apply map_Forall_delete.
    + apply map_Forall_insert_2; [| done]. apply (Hhall _ _ Hp).
  - split; [exact Hcar' | split; [exact Hhall | exact Hcur]].
Qed.

(** [floors_valid] reads four fields only. *)
Lemma floors_valid_frame e e' :
  floors_valid e →
  internalRequests e' = internalRequests e →
  externalRequests e' = externalRequests e →
  currentFloor e' = currentFloor e →
  maxFloors e' = maxFloors e →
  floors_valid e'.
Proof.
  intros Hvalid Hi Hx Hf Hm. unfold floors_valid.
  by rewrite Hi, Hx, Hf, Hm.
Qed.

Lemma simulatePassengers_maxFloors e (entering exiting : Z) :
  maxFloors (simulatePassengers entering exiting e) = maxFloors e.
Proof. unfold simulatePassengers. simpl. by destruct (bool_decide _). Qed.

Lemma openDoors_valid e (entering exiting : Z) :
  floors_valid e → floors_valid (openDoors entering exiting e).
Proof.
  intros Hvalid.
  destruct (openDoors_cabin e entering exiting) as (_ & Hf & Hx & Hi).
  apply (floors_valid_frame e); try done.
  unfold openDoors. cbv zeta. by rewrite simulatePassengers_maxFloors.
Qed.

Lemma closeDoors_valid e : floors_valid e → floors_valid (closeDoors e).
Proof.
  intros Hvalid.
  destruct (closeDoors_cabin e) as (_ & Hf & Hx & Hi).
  apply (floors_valid_frame e); try done.
  unfold closeDoors. by destruct (overloaded e).
Qed.

Lemma stopCycle_valid e (entering exiting : Z) :
  floors_valid e → floors_valid (stopCycle entering exiting e).
Proof.
  intros Hvalid. unfold stopCycle.
  by apply closeDoors_valid, processStop_valid, openDoors_valid.
Qed.

Lemma updateState_inv e : floors_valid e → shaft_inv (updateState e).
Proof.
  intros Hvalid. pose proof Hvalid as (Hcar & Hhall & Hcur & Hint).
  unfold updateState.
  destruct (bool_decide (internalRequests e = ∅)
            && negb (hasExternalRequests e)) eqn:Hnone.
  - split; [exact Hvalid |]. by split.
  - destruct (bool_decide (findNextFloor e ≠ -1)) eqn:Htarget.
    + apply bool_decide_eq_true in Htarget.
      split; [exact Hvalid |]. apply direction_heading; [| exact Hcur].
      destruct (findNextFloor_range e Hvalid); [done | done].
    + split; [exact Hvalid |]. by split.
Qed.

(** A state change that keeps floors, requests and [maxFloors] and leaves
    the car not moving keeps the invariant. *)
Lemma shaft_inv_parked e e' :
  floors_valid e →
  internalRequests e' = internalRequests e →
  externalRequests e' = externalRequests e →
  currentFloor e' = currentFloor e →
  maxFloors e' = maxFloors e →
  state e' ≠ MOVING_UP → state e' ≠ MOVING_DOWN →
  shaft_inv e'.
Proof.
  intros (Hcar & Hhall & Hcur) Hi Hx Hf Hm Hup Hdown.
  split; [| by split].
  unfold floors_valid. rewrite Hi, Hx, Hf, Hm. done.
Qed.

(** A change of the atomics and the log only keeps the invariant. *)
Lemma shaft_inv_flags e e' :
  shaft_inv e →
  internalRequests e' = internalRequests e →
  externalRequests e' = externalRequests e →
  currentFloor e' = currentFloor e →
  maxFloors e' = maxFloors e →
  state e' = state e →
  shaft_inv e'.
Proof.
  intros [(Hcar & Hhall & Hcur) Hhead] Hi Hx Hf Hm Hs.
  unfold shaft_inv, floors_valid, heading_valid.
  rewrite Hi, Hx, Hf, Hm, Hs. done.
Qed.

Lemma requestFloor_inv e (floor : Z) (type : RequestType) (emergency : bool) :
  shaft_inv e → shaft_inv (requestFloor floor type emergency e).2.
Proof.
  intros Hinv. unfold requestFloor.
  case_bool_decide as Hrange; [done |].
  destruct (maintenanceMode e && negb emergency); [done |].
  destruct emergency; [by apply (shaft_inv_flags e) |].
  destruct Hinv as [(Hcar & Hhall & Hcur) Hhead].
  destruct type; simpl.
  - case_bool_decide; [| done]. split; [| done].
    split; [| split; [exact Hhall | exact Hcur]]. simpl.
    intros x [->%elem_of_singleton | Hx]%elem_of_union;
      [lia | by apply Hcar].
  - split; [| done]. split; [exact Hcar | split; [| exact Hcur]]. simpl.
    apply map_Forall_lookup. intros f p Hp.
    destruct (decide (f = floor)) as [-> | Hne]; [lia |].
    rewrite lookup_alter_ne in Hp by done. unfold ensure_entry in Hp.
    destruct (externalRequests e !! floor);
      [| rewrite lookup_insert_ne in Hp by done]; apply (Hhall _ _ Hp).
  - split; [| done]. split; [exact Hcar | split; [| exact Hcur]]. simpl.
    apply map_Forall_lookup. intros f p Hp.
    destruct (decide (f = floor)) as [-> | Hne]; [lia |].
    rewrite lookup_alter_ne in Hp by done. unfold ensure_entry in Hp.
    destruct (externalRequests e !! floor);
      [| rewrite lookup_insert_ne in Hp by done]; apply (Hhall _ _ Hp).
Qed.

End ShaftInvariant.

Section Runs.

Implicit Types (e : Elevator) (calls : list ControlCall).

Lemma deliver_inv (c : ControlCall) e : shaft_inv e → shaft_inv (deliver c e).
Proof.
  intros Hinv. destruct c as [| | | mode | floor type]; simpl; try done;
    try (by apply (shaft_inv_flags e)).
  by apply requestFloor_inv.
Qed.

Lemma poll_while_inv (latch : Elevator → bool) calls e e' :
  shaft_inv e → poll_while latch calls e = Some e' → shaft_inv e'.
Proof.
  revert e. induction calls as [| c calls IH]; intros e Hinv; simpl.
  - destruct (latch e && running e); [done |]. by intros [= <-].
  - destruct (latch e && running e); [| by intros [= <-]].
    apply IH. by apply deliver_inv.
Qed.

Lemma handleEmergency_inv calls e e' :
  shaft_inv e → handleEmergency calls e = Some e' → shaft_inv e'.
Proof.
  intros Hinv. unfold handleEmergency.
  destruct (poll_while emergencyStop calls (emergency_enter e))
    as [e1 |] eqn:Hwait; [| done].
  intros [= <-].
  assert (shaft_inv (emergency_enter e)) as Henter.
  { unfold emergency_enter. destruct Hinv as [Hvalid _].
    destruct (_ && _); by apply (shaft_inv_parked e). }
  pose proof (poll_while_inv _ _ _ _ Henter Hwait) as [Hvalid Hhead].
  unfold emergency_leave. destruct (running e1); [| done].
  by apply (shaft_inv_parked e1).
Qed.

Lemma handleMaintenance_inv calls e e' :
  shaft_inv e → handleMaintenance calls e = Some e' → shaft_inv e'.
Proof.
  intros Hinv. unfold handleMaintenance.
  destruct (poll_while maintenanceMode calls (set_state MAINTENANCE e))
    as [e1 |] eqn:Hwait; [| done].
  intros [= <-].
  assert (shaft_inv (set_state MAINTENANCE e)) as Henter.
  { destruct Hinv as [Hvalid _]. by apply (shaft_inv_parked e). }
  pose proof (poll_while_inv _ _ _ _ Henter Hwait) as [Hvalid Hhead].
  destruct (running e1); [| done].
  by apply (shaft_inv_parked e1).
Qed.

Lemma control_iteration_inv calls (entering exiting : Z) e e' :
  shaft_inv e →
  control_iteration calls entering exiting e = Continue e' →
  shaft_inv e'.
Proof.
  intros Hinv. unfold control_iteration.
  destruct (negb (running e)); [done |].
  destruct (emergencyStop e).
  { destruct (handleEmergency calls e) as [e1 |] eqn:Hh; [| done].
    intros [= <-]. by eapply handleEmergency_inv. }
  destruct (maintenanceMode e).
  { destruct (handleMaintenance calls e) as [e1 |] eqn:Hh; [| done].
    intros [= <-]. by eapply handleMaintenance_inv. }
  destruct (negb (wake_condition e)); [done |].
  intros [= <-]. apply updateState_inv.
  pose proof (move_valid _ (chooseDirection_inv e Hinv)) as Hmoved.
  destruct (shouldStopAtCurrentFloor _); [by apply stopCycle_valid | done].
Qed.

Lemma act_inv (a : Action) e : shaft_inv e → shaft_inv (act a e).
Proof.
  intros Hinv.
  destruct a as [floor type emergency | | mode | | calls entering exiting];
    simpl; try (by apply (shaft_inv_flags e)).
  - by apply requestFloor_inv.
  - destruct (control_iteration calls entering exiting e) as [e' | |] eqn:Hit;
      [| done | done].
    by eapply control_iteration_inv.
Qed.

Lemma run_inv (acts : list Action) e : shaft_inv e → shaft_inv (run acts e).
Proof.
  revert e. induction acts as [| a acts IH]; intros e Hinv; [done |].
  simpl. apply IH. by apply act_inv.
Qed.

Lemma newElevator_inv (n floors cap : Z) :
  1 ≤ floors < INT_MAX → shaft_inv (newElevator n floors cap).
Proof.
  intros Hmax. split; [| by split].
  split; [| split; [| simpl; lia]].
  - intros x Hx. by apply not_elem_of_empty in Hx.
  - apply map_Forall_empty.
Qed.

End Runs.

(** * Further properties of the code *)

(** ** What a request does to a car *)

Section RequestEffects.

Implicit Types (e : Elevator) (floor : Z) (type : RequestType).
Implicit Types (m : gmap Z (bool * bool)).

(** The entry at [floor] after a press, and every other entry. *)
Lemma lookup_press (press : bool * bool → bool * bool) floor m (g : Z) :
  alter press floor (ensure_entry floor m) !! g
  = if decide (g = floor)
    then Some (press (default (false, false) (m !! floor)))
    else m !! g.
Proof.
  unfold ensure_entry. destruct (decide (g = floor)) as [-> | Hne].
  - rewrite lookup_alter_eq.
    destruct (m !! floor) as [p |] eqn:Hp.
    + by rewrite Hp.
    + by rewrite lookup_insert_eq.
  - rewrite lookup_alter_ne by done.
    destruct (m !! floor) as [p |] eqn:Hp; [done |].
    by rewrite lookup_insert_ne.
Qed.

Lemma requestFloor_collections e floor type :
  1 ≤ floor ≤ maxFloors e → maintenanceMode e = false →
  internalRequests (requestFloor floor type false e).2
  = requested_car_calls floor type (internalRequests e)
  ∧ externalRequests (requestFloor floor type false e).2
    = requested_hall_calls floor type (externalRequests e)
  ∧ maxFloors (requestFloor floor type false e).2 = maxFloors e
  ∧ maintenanceMode (requestFloor floor type false e).2 = false.
Proof.
  intros Hrange Hmaint. destruct type.
  - destruct (decide (floor ∈ internalRequests e)) as [Hold | Hnew].
    + rewrite requestFloor_internal_again by done. simpl.
      split; [| done]. apply set_eq. intros x.
      rewrite elem_of_union, elem_of_singleton.
      split; [by right | by intros [-> | Hx]].
    + by rewrite requestFloor_internal_new.
  - by rewrite requestFloor_external_up.
  - by rewrite requestFloor_external_down.
Qed.

End RequestEffects.

(** X1: [requestFloor] answers [false] in exactly three cases: the floor
    is outside [1, maxFloors]; the car is in maintenance and the request is
    not an emergency; or the request is a plain car call for a floor that is
    already requested.  A request answered [false] leaves the car exactly as
    it was, log included. *)
Theorem requestFloor_rejected (e : Elevator) (floor : Z) (type : RequestType)
    (emergency : bool) :
  ((requestFloor floor type emergency e).1 = false
   ↔ (floor < 1 ∨ maxFloors e < floor)
     ∨ (maintenanceMode e = true ∧ emergency = false)
     ∨ (emergency = false ∧ type = INTERNAL ∧ floor ∈ internalRequests e))
  ∧ ((requestFloor floor type emergency e).1 = false →
     (requestFloor floor type emergency e).2 = e).
Proof.
  unfold requestFloor.
  case_bool_decide as Hrange.
  { split; [| done]. split; [by left | done]. }
  destruct (maintenanceMode e) eqn:Hmaint, emergency; simpl.
  - split; [| done]. split; [done |].
    intros [Hout | [[_ Hem] | [Hem _]]]; done.
  - split; [| done]. split; [| done]. intros _. right. by left.
  - split; [| done]. split; [done |].
    intros [Hout | [[Hm _] | [Hem _]]]; done.
  - destruct type; simpl.
    + case_bool_decide as Hnew; simpl.
      * split; [| done]. split; [done |].
        intros [Hout | [[Hm _] | (_ & _ & Hin)]]; done.
      * split; [| done]. split; [| done]. intros _. right. right.
        split; [done |]. split; [done |].
        by destruct (decide (floor ∈ internalRequests e)).
    + split; [| done]. split; [done |].
      intros [Hout | [[Hm _] | (_ & Hty & _)]]; done.
    + split; [| done]. split; [done |].
      intros [Hout | [[Hm _] | (_ & Hty & _)]]; done.
Qed.

(** X2: a plain request that passes the range and maintenance tests leaves
    the floor in the right collection and touches nothing else there.  A
    car call makes [internalRequests] the old set plus the floor and keeps
    [externalRequests]; a hall call keeps [internalRequests], sets its own
    bit at the floor, keeps the other bit of that floor (clear if the floor
    had no entry), and keeps the entry of every other floor. *)
Theorem requestFloor_accepted_effect (e : Elevator) (floor : Z)
    (type : RequestType) :
  1 ≤ floor ≤ maxFloors e →
  maintenanceMode e = false →
  let e' := (requestFloor floor type false e).2 in
  let old := default (false, false) (externalRequests e !! floor) in
  (type = INTERNAL →
     internalRequests e' = {[floor]} ∪ internalRequests e
     ∧ floor ∈ internalRequests e'
     ∧ externalRequests e' = externalRequests e)
  ∧ (type = EXTERNAL_UP →
     internalRequests e' = internalRequests e
     ∧ externalRequests e' !! floor = Some (true, old.2))
  ∧ (type = EXTERNAL_DOWN →
     internalRequests e' = internalRequests e
     ∧ externalRequests e' !! floor = Some (old.1, true))
  ∧ (∀ g, g ≠ floor → externalRequests e' !! g = externalRequests e !! g).
Proof.
  intros Hrange Hmaint e' old. subst e' old.
  destruct (requestFloor_collections e floor type Hrange Hmaint)
    as (-> & -> & _).
  split; [| split; [| split]].
  - intros ->. simpl. split; [done |]. split; [| done].
    apply elem_of_union_l. by apply elem_of_singleton.
  - intros ->. simpl. split; [done |].
    rewrite lookup_press. by rewrite decide_True.
  - intros ->. simpl. split; [done |].
    rewrite lookup_press. by rewrite decide_True.
  - intros g Hne. destruct type; simpl; [done | |];
      rewrite lookup_press; by rewrite decide_False.
Qed.

Lemma requestFloor_accepted_effect_witness :
  let e := (requestFloor 4 EXTERNAL_DOWN false (newElevator 1 10 5)).2 in
  let e' := (requestFloor 4 EXTERNAL_UP false e).2 in
  internalRequests e' = internalRequests e
  ∧ externalRequests e' !! 4 = Some (true, true)
  ∧ externalRequests e' !! 7 = None.
Proof.
  intros e e'.
  destruct (requestFloor_accepted_effect e 4 EXTERNAL_UP)
    as (_ & Hup & _ & Hother); [simpl; lia | reflexivity |].
  destruct (Hup eq_refl) as [Hi Hx].
  split; [exact Hi |]. split; [exact Hx |].
  unfold e'. rewrite (Hother 7) by lia. reflexivity.
Defined.

(** X3: two plain requests can be made in either order: for in-range
    floors and a car not in maintenance, both orders leave the same
    [internalRequests] and the same [externalRequests]. *)
Theorem requestFloor_commute (e : Elevator) (f1 f2 : Z)
    (t1 t2 : RequestType) :
  1 ≤ f1 ≤ maxFloors e → 1 ≤ f2 ≤ maxFloors e →
  maintenanceMode e = false →
  let a := (requestFloor f2 t2 false (requestFloor f1 t1 false e).2).2 in
  let b := (requestFloor f1 t1 false (requestFloor f2 t2 false e).2).2 in
  internalRequests a = internalRequests b
  ∧ externalRequests a = externalRequests b.
Proof.
  intros H1 H2 Hmaint a b. subst a b.
  destruct (requestFloor_collections e f1 t1 H1 Hmaint)
    as (Hi1 & Hx1 & Hm1 & Hn1).
  destruct (requestFloor_collections e f2 t2 H2 Hmaint)
    as (Hi2 & Hx2 & Hm2 & Hn2).
  destruct (requestFloor_collections (requestFloor f1 t1 false e).2 f2 t2)
    as (-> & -> & _); [lia | done |].
  destruct (requestFloor_collections (requestFloor f2 t2 false e).2 f1 t1)
    as (-> & -> & _); [lia | done |].
  rewrite Hi1, Hx1, Hi2, Hx2. split.
  - destruct t1, t2; simpl; try done.
    apply set_eq. intros x. rewrite !elem_of_union.
    split; intros [? | [? | ?]]; auto.
  - apply map_eq. intros g.
    destruct t1, t2; simpl; try done; rewrite !lookup_press;
      repeat case_decide; simplify_eq; try done;
      by destruct (externalRequests e !! f2) as [[[] []] |].
Qed.

Lemma requestFloor_commute_witness :
  let e := newElevator 1 10 5 in
  let a := (requestFloor 4 EXTERNAL_DOWN false
              (requestFloor 4 EXTERNAL_UP false e).2).2 in
  let b := (requestFloor 4 EXTERNAL_UP false
              (requestFloor 4 EXTERNAL_DOWN false e).2).2 in
  internalRequests a = internalRequests b
  ∧ externalRequests a = externalRequests b.
Proof.
  apply (requestFloor_commute (newElevator 1 10 5) 4 4
           EXTERNAL_UP EXTERNAL_DOWN); [simpl; lia | simpl; lia | reflexivity].
Defined.

(** ** Who writes what *)

Section Frames.

Implicit Types (e : Elevator) (calls : list ControlCall).

Lemma control_only_refl e : control_only e e.
Proof.
  unfold control_only. repeat (split; [reflexivity |]).
  exists []. by rewrite app_nil_r.
Qed.

Lemma control_only_trans e1 e2 e3 :
  control_only e1 e2 → control_only e2 e3 → control_only e1 e3.
Proof.
  intros (A1 & A2 & A3 & A4 & A5 & A6 & A7 & A8 & A9 & A10 & l1 & Hl1 & Hc1)
         (B1 & B2 & B3 & B4 & B5 & B6 & B7 & B8 & B9 & B10 & l2 & Hl2 & Hc2).
  unfold control_only.
  rewrite B1, B2, B3, B4, B5, B6, B7, B8, B9, B10.
  repeat (split; [assumption |]).
  exists (l1 ++ l2). split.
  - by rewrite Hl2, Hl1, app_assoc.
  - by apply Forall_app.
Qed.

(** A step that assigns control fields and logs control records. *)
Lemma control_only_step e e' (l : list Event) :
  id e' = id e → currentFloor e' = currentFloor e →
  maxFloors e' = maxFloors e → capacity e' = capacity e →
  currentPassengers e' = currentPassengers e →
  overloaded e' = overloaded e →
  internalRequests e' = internalRequests e →
  externalRequests e' = externalRequests e →
  totalTrips e' = totalTrips e →
  totalFloorsTraveled e' = totalFloorsTraveled e →
  events e' = events e ++ l →
  Forall (λ ev, is_control_event ev = true) l →
  control_only e e'.
Proof. intros. unfold control_only. repeat (split; [assumption |]). eauto. Qed.

Lemma requestFloor_emergency_control_only e (floor : Z) (type : RequestType) :
  control_only e (requestFloor floor type true e).2.
Proof.
  unfold requestFloor. case_bool_decide; [apply control_only_refl |].
  rewrite andb_false_r. simpl.
  apply (control_only_step _ _ [EvEmergencyRequest]); try reflexivity.
  by repeat constructor.
Qed.

Lemma deliver_control_only (c : ControlCall) e : control_only e (deliver c e).
Proof.
  destruct c as [| | | mode | floor type]; simpl;
    try (apply (control_only_step _ _ []); try reflexivity;
         [by rewrite app_nil_r | constructor]).
  apply requestFloor_emergency_control_only.
Qed.

Lemma poll_while_control_only (latch : Elevator → bool) calls e e' :
  poll_while latch calls e = Some e' → control_only e e'.
Proof.
  revert e. induction calls as [| c calls IH]; intros e; simpl.
  - destruct (latch e && running e); [done |].
    intros [= ->]. apply control_only_refl.
  - destruct (latch e && running e).
    + intros Hrest. eapply control_only_trans; [apply deliver_control_only |].
      by apply IH.
    + intros [= ->]. apply control_only_refl.
Qed.

Lemma emergency_enter_control_only e : control_only e (emergency_enter e).
Proof.
  unfold emergency_enter. destruct (_ && _).
  - apply (control_only_step _ _
             [EvEmergencyActivated; EvEmergencyDoorsOpened (currentFloor e)]);
      try reflexivity; [| by repeat constructor].
    simpl. by rewrite <- app_assoc.
  - apply (control_only_step _ _ [EvEmergencyActivated]); try reflexivity.
    by repeat constructor.
Qed.

Lemma emergency_leave_control_only e : control_only e (emergency_leave e).
Proof.
  unfold emergency_leave. destruct (running e); [| apply control_only_refl].
  apply (control_only_step _ _ [EvEmergencyCleared]); try reflexivity.
  by repeat constructor.
Qed.

Lemma handleEmergency_control_only calls e e' :
  handleEmergency calls e = Some e' → control_only e e'.
Proof.
  unfold handleEmergency.
  destruct (poll_while emergencyStop calls (emergency_enter e))
    as [e1 |] eqn:Hwait; [| done].
  intros [= <-].
  eapply control_only_trans; [apply emergency_enter_control_only |].
  eapply control_only_trans; [by eapply poll_while_control_only |].
  apply emergency_leave_control_only.
Qed.

Lemma handleMaintenance_control_only calls e e' :
  handleMaintenance calls e = Some e' → control_only e e'.
Proof.
  unfold handleMaintenance.
  destruct (poll_while maintenanceMode calls (set_state MAINTENANCE e))
    as [e1 |] eqn:Hwait; [| done].
  intros [= <-].
  eapply control_only_trans.
  { apply (control_only_step e (set_state MAINTENANCE e) []);
      try reflexivity; [by rewrite app_nil_r | constructor]. }
  eapply control_only_trans; [by eapply poll_while_control_only |].
  destruct (running e1); [| apply control_only_refl].
  apply (control_only_step _ _ [EvMaintenanceEnded]); try reflexivity.
  by repeat constructor.
Qed.

Lemma set_state_control_only (st : ElevatorState) e :
  control_only e (set_state st e).
Proof.
  apply (control_only_step _ _ []); try reflexivity;
    [by rewrite app_nil_r | constructor].
Qed.

Lemma chooseDirection_control_only e : control_only e (chooseDirection e).
Proof.
  unfold chooseDirection.
  destruct (bool_decide _); [| apply control_only_refl].
  destruct (_ || _); [apply set_state_control_only | apply control_only_refl].
Qed.

Lemma updateState_control_only e : control_only e (updateState e).
Proof.
  unfold updateState.
  destruct (_ && _); [apply set_state_control_only |].
  destruct (bool_decide _); apply set_state_control_only.
Qed.

Lemma requestFloor_request_only e (floor : Z) (type : RequestType)
    (emergency : bool) :
  request_only e (requestFloor floor type emergency e).2.
Proof.
  assert (request_only e e) as Hrefl.
  { unfold request_only. repeat (split; [reflexivity |]).
    exists []. by rewrite app_nil_r. }
  unfold requestFloor.
  case_bool_decide; [exact Hrefl |].
  destruct (maintenanceMode e && negb emergency); [exact Hrefl |].
  destruct emergency.
  { unfold request_only. simpl. repeat (split; [reflexivity |]).
    exists [EvEmergencyRequest]. split; [done | by repeat constructor]. }
  destruct type.
  - case_bool_decide; [| exact Hrefl].
    unfold request_only. simpl. repeat (split; [reflexivity |]).
    exists [EvInternalRequest floor]. split; [done | by repeat constructor].
  - unfold request_only. simpl. repeat (split; [reflexivity |]).
    exists [EvExternalUpRequest floor]. split; [done | by repeat constructor].
  - unfold request_only. simpl. repeat (split; [reflexivity |]).
    exists [EvExternalDownRequest floor]. split; [done | by repeat constructor].
Qed.

End Frames.

(** ** The motion step and the stop cycle *)

Section Steps.

Implicit Types (e : Elevator) (entering exiting : Z).

Lemma move_fields e :
  id (move e) = id e ∧ state (move e) = state e
  ∧ maxFloors (move e) = maxFloors e ∧ capacity (move e) = capacity e
  ∧ currentPassengers (move e) = currentPassengers e
  ∧ doorOpen (move e) = doorOpen e ∧ overloaded (move e) = overloaded e
  ∧ internalRequests (move e) = internalRequests e
  ∧ externalRequests (move e) = externalRequests e
  ∧ running (move e) = running e
  ∧ emergencyStop (move e) = emergencyStop e
  ∧ maintenanceMode (move e) = maintenanceMode e
  ∧ totalTrips (move e) = totalTrips e.
Proof.
  unfold move. destruct (state e) eqn:Hst; try done;
    by destruct (bool_decide _).
Qed.

Lemma move_motion e :
  currentFloor (move e) = currentFloor e + heading (state e)
  ∧ totalFloorsTraveled (move e)
    = totalFloorsTraveled e + Z.abs (heading (state e))
  ∧ events (move e)
    = events e
      ++ (if bool_decide (heading (state e) = 0) then []
          else [EvArrived (currentFloor e + heading (state e))]).
Proof.
  unfold move. destruct (state e) eqn:Hst; simpl;
    rewrite ?app_nil_r, ?Z.add_0_r; try done.
  - split; [done |]. split; [f_equal; lia | done].
  - split; [done |]. split; [f_equal; lia | done].
Qed.

Lemma same_fixed_trans e1 e2 e3 :
  same_fixed e1 e2 → same_fixed e2 e3 → same_fixed e1 e3.
Proof.
  unfold same_fixed.
  intros (A1 & A2 & A3 & A4 & A5 & A6 & A7 & A8)
         (B1 & B2 & B3 & B4 & B5 & B6 & B7 & B8).
  rewrite B1, B2, B3, B4, B5, B6, B7, B8. by repeat split.
Qed.

Lemma simulatePassengers_fixed e entering exiting :
  same_fixed e (simulatePassengers entering exiting e).
Proof.
  unfold simulatePassengers, same_fixed. simpl.
  by destruct (bool_decide _).
Qed.

Lemma openDoors_fixed e entering exiting :
  same_fixed e (openDoors entering exiting e).
Proof.
  unfold openDoors. cbv zeta. set (e2 := logEvent _ _).
  apply (same_fixed_trans e e2); [by repeat split |].
  apply simulatePassengers_fixed.
Qed.

Lemma processStop_fixed e : same_fixed e (processStop e).
Proof.
  unfold processStop, same_fixed. simpl.
  destruct (externalRequests e !! currentFloor e) as [p |]; simpl;
    [by destruct (negb _ && negb _) | done].
Qed.

Lemma closeDoors_fixed e : same_fixed e (closeDoors e).
Proof. unfold closeDoors, same_fixed. by destruct (overloaded e). Qed.

Lemma stopCycle_fixed e entering exiting :
  same_fixed e (stopCycle entering exiting e).
Proof.
  unfold stopCycle.
  eapply same_fixed_trans; [apply openDoors_fixed |].
  eapply same_fixed_trans; [apply processStop_fixed |].
  apply closeDoors_fixed.
Qed.

Lemma closeDoors_doors e :
  doorOpen (closeDoors e) = false ∧ totalTrips (closeDoors e) = totalTrips e.
Proof. unfold closeDoors. by destruct (overloaded e). Qed.

Lemma processStop_trips e : totalTrips (processStop e) = totalTrips e + 1.
Proof.
  unfold processStop. simpl.
  destruct (externalRequests e !! currentFloor e) as [p |]; simpl;
    [by destruct (negb _ && negb _) | done].
Qed.

Lemma openDoors_trips e entering exiting :
  totalTrips (openDoors entering exiting e) = totalTrips e.
Proof.
  unfold openDoors, simulatePassengers. simpl. by destruct (bool_decide _).
Qed.

Lemma processStop_car_calls e :
  internalRequests (processStop e)
  = internalRequests e ∖ {[currentFloor e]}.
Proof.
  unfold processStop. simpl.
  destruct (externalRequests e !! currentFloor e) as [p |]; simpl;
    [by destruct (negb _ && negb _) | done].
Qed.

Lemma stopCycle_requests e entering exiting :
  internalRequests (stopCycle entering exiting e)
  = internalRequests e ∖ {[currentFloor e]}
  ∧ externalRequests (stopCycle entering exiting e)
    = delete (currentFloor e) (externalRequests e)
  ∧ totalTrips (stopCycle entering exiting e) = totalTrips e + 1.
Proof.
  split; [| split; [apply stopCycle_erases_hall_entry |]].
  - unfold stopCycle.
    destruct (closeDoors_cabin (processStop (openDoors entering exiting e)))
      as (_ & _ & _ & ->).
    destruct (openDoors_cabin e entering exiting) as (_ & Hf & Hx & Hi).
    by rewrite processStop_car_calls, Hi, Hf.
  - unfold stopCycle.
    destruct (closeDoors_doors (processStop (openDoors entering exiting e)))
      as [_ ->].
    by rewrite processStop_trips, openDoors_trips.
Qed.

(** The log of a stop cycle, whatever the draws are. *)
Lemma stopCycle_log e entering exiting :
  ∃ (a b c d : Z) (w : bool),
    events (stopCycle entering exiting e)
    = events e
      ++ [EvDoorsOpened (currentFloor e); EvPassengers a b c d]
      ++ (if w then [EvOverloadWarning] else [])
      ++ [EvDoorsClosed].
Proof.
  unfold stopCycle.
  destruct (closeDoors_frame (processStop (openDoors entering exiting e)))
    as (_ & _ & ->).
  destruct (processStop_frame (openDoors entering exiting e))
    as (-> & -> & _).
  unfold openDoors. cbv zeta. set (e2 := logEvent _ _).
  assert (∃ a b c d, events (simulatePassengers entering exiting e2)
                     = events e2 ++ [EvPassengers a b c d]) as Hsim.
  { unfold simulatePassengers. simpl. destruct (bool_decide _); simpl; eauto. }
  destruct Hsim as (a & b & c & d & ->).
  exists a, b, c, d, (overloaded (simulatePassengers entering exiting e2)).
  subst e2. simpl. by rewrite <- !app_assoc.
Qed.

End Steps.

Lemma stopCycle_state (e : Elevator) (entering exiting : Z) :
  state (stopCycle entering exiting e) = DOORS_OPEN.
Proof.
  unfold stopCycle.
  destruct (closeDoors_cabin (processStop (openDoors entering exiting e)))
    as (-> & _).
  destruct (processStop_frame (openDoors entering exiting e))
    as (_ & _ & _ & _ & ->).
  apply openDoors_cabin.
Qed.

(** X4: a stop cycle serves the floor the car stands on and nothing else:
    the floor leaves [internalRequests], its hall entry is erased, every
    other car call and hall entry stays, [totalTrips] grows by one, the car
    has not moved, the doors are closed again, and
    [shouldStopAtCurrentFloor] is false right after the cycle. *)
Theorem stopCycle_serves_floor (e : Elevator) (entering exiting : Z) :
  let e' := stopCycle entering exiting e in
  currentFloor e' = currentFloor e
  ∧ internalRequests e' = internalRequests e ∖ {[currentFloor e]}
  ∧ externalRequests e' !! currentFloor e = None
  ∧ (∀ g, g ≠ currentFloor e →
       (g ∈ internalRequests e' ↔ g ∈ internalRequests e)
       ∧ externalRequests e' !! g = externalRequests e !! g)
  ∧ totalTrips e' = totalTrips e + 1
  ∧ doorOpen e' = false
  ∧ shouldStopAtCurrentFloor e' = false.
Proof.
  intros e'. subst e'.
  destruct (stopCycle_requests e entering exiting) as (Hi & Hx & Ht).
  destruct (stopCycle_fixed e entering exiting) as (_ & Hf & _).
  split; [exact Hf |]. split; [exact Hi |].
  split; [by rewrite Hx, lookup_delete_eq |].
  split; [| split; [exact Ht | split]].
  - intros g Hg. rewrite Hi, Hx. split.
    + rewrite elem_of_difference, elem_of_singleton. split; [by intros [? _] | done].
    + by rewrite lookup_delete_ne.
  - unfold stopCycle. apply closeDoors_doors.
  - unfold shouldStopAtCurrentFloor. rewrite Hf, Hi, Hx, lookup_delete_eq.
    rewrite bool_decide_eq_false_2; [done |].
    rewrite elem_of_difference, elem_of_singleton. by intros [_ Hne].
Qed.

(** ** The shape of one action *)

Section Actions.

Implicit Types (e : Elevator) (calls : list ControlCall) (a : Action).

(** A completed iteration either only handled a latch, or chose a
    direction, made the motion step, possibly ran the stop cycle, and
    updated the state. *)
Lemma control_iteration_cases calls (entering exiting : Z) e e' :
  control_iteration calls entering exiting e = Continue e' →
  control_only e e'
  ∨ ∃ e3,
      (e3 = move (chooseDirection e)
       ∨ (shouldStopAtCurrentFloor (move (chooseDirection e)) = true
          ∧ e3 = stopCycle entering exiting (move (chooseDirection e))))
      ∧ e' = updateState e3
      ∧ running e = true ∧ emergencyStop e = false
      ∧ maintenanceMode e = false ∧ wake_condition e = true.
Proof.
  unfold control_iteration.
  destruct (running e) eqn:Hrun; [| done]. simpl.
  destruct (emergencyStop e) eqn:Hem.
  { destruct (handleEmergency calls e) as [e1 |] eqn:Hh; [| done].
    intros [= <-]. left. by eapply handleEmergency_control_only. }
  destruct (maintenanceMode e) eqn:Hm.
  { destruct (handleMaintenance calls e) as [e1 |] eqn:Hh; [| done].
    intros [= <-]. left. by eapply handleMaintenance_control_only. }
  destruct (wake_condition e) eqn:Hw; [| done]. simpl.
  intros [= <-]. right.
  destruct (shouldStopAtCurrentFloor (move (chooseDirection e))) eqn:Hstop.
  - eexists. split; [right; split; reflexivity |]. by repeat split.
  - eexists. split; [left; reflexivity |]. by repeat split.
Qed.

(** A property kept by the control-only steps, by requests, by the motion
    step and by the stop cycle (on a car with the head count the action
    started with) is kept by every action. *)
Lemma act_preserves (P : Elevator → Prop) a e :
  (∀ x y, control_only x y → P x → P y) →
  (∀ x floor type emergency, P x → P (requestFloor floor type emergency x).2) →
  (∀ x, P x → P (move x)) →
  (∀ x calls entering exiting,
     a = ActControl calls entering exiting →
     currentPassengers x = currentPassengers e →
     P x → P (stopCycle entering exiting x)) →
  P e → P (act a e).
Proof.
  intros Hctl Hreq Hmove Hstop HP.
  destruct a as [floor type emergency | | mode | | calls entering exiting];
    simpl.
  - by apply Hreq.
  - apply (Hctl e); [| done]. apply (deliver_control_only CallResetEmergency).
  - apply (Hctl e); [| done].
    apply (deliver_control_only (CallSetMaintenanceMode mode)).
  - apply (Hctl e); [| done]. apply (deliver_control_only CallStop).
  - destruct (control_iteration calls entering exiting e) as [e' | |] eqn:Hit;
      [| done | done].
    apply control_iteration_cases in Hit
      as [Hco | (e3 & He3 & -> & _)]; [by apply (Hctl e) |].
    apply (Hctl e3); [apply updateState_control_only |].
    assert (P (move (chooseDirection e))) as Hmoved.
    { apply Hmove. apply (Hctl e); [apply chooseDirection_control_only | done]. }
    destruct He3 as [-> | [_ ->]]; [done |].
    apply (Hstop _ calls); [done | | done].
    destruct (move_fields (chooseDirection e)) as (_ & _ & _ & _ & -> & _).
    apply chooseDirection_control_only.
Qed.

Lemma run_preserves (P : Elevator → Prop) :
  (∀ x y, control_only x y → P x → P y) →
  (∀ x floor type emergency, P x → P (requestFloor floor type emergency x).2) →
  (∀ x, P x → P (move x)) →
  (∀ x entering exiting, P x → P (stopCycle entering exiting x)) →
  ∀ acts e, P e → P (run acts e).
Proof.
  intros Hctl Hreq Hmove Hstop acts.
  induction acts as [| a acts IH]; intros e HP; [done |].
  simpl. apply IH. apply act_preserves; try done.
  intros x calls entering exiting _ _. apply Hstop.
Qed.

End Actions.

(** ** What every run keeps *)

Section RunInvariants.

Implicit Types (e : Elevator) (acts : list Action).

Lemma count_app (P : Event → bool) (l1 l2 : list Event) :
  count P (l1 ++ l2) = count P l1 + count P l2.
Proof. induction l1 as [| ev l1 IH]; simpl; lia. Qed.

Lemma count_none (P Q : Event → bool) (l : list Event) :
  (∀ ev, Q ev = true → P ev = false) →
  Forall (λ ev, Q ev = true) l → count P l = 0.
Proof.
  intros HQ. induction 1 as [| ev l Hev _ IH]; simpl; [done |].
  rewrite (HQ ev Hev). lia.
Qed.

(** Control and request records are none of the counted records. *)
Lemma count_control_only (P : Event → bool) e e' :
  (∀ ev, is_control_event ev = true → P ev = false) →
  control_only e e' → count P (events e') = count P (events e).
Proof.
  intros HP (_ & _ & _ & _ & _ & _ & _ & _ & _ & _ & l & -> & Hl).
  rewrite count_app, (count_none P is_control_event l HP Hl). lia.
Qed.

Lemma count_request_only (P : Event → bool) e e' :
  (∀ ev, is_request_event ev = true → P ev = false) →
  request_only e e' → count P (events e') = count P (events e).
Proof.
  intros HP (_ & _ & _ & _ & _ & _ & _ & _ & _ & _ & _ & _ & l & -> & Hl).
  rewrite count_app, (count_none P is_request_event l HP Hl). lia.
Qed.

Lemma validity_of_draw e e' (entering exiting : Z) :
  currentPassengers e' = currentPassengers e →
  valid_draw e entering exiting → valid_draw e' entering exiting.
Proof. unfold valid_draw. by intros ->. Qed.

Lemma stopCycle_load_bounded e (entering exiting : Z) :
  valid_draw e entering exiting →
  0 ≤ currentPassengers e ≤ capacity e →
  0 ≤ currentPassengers (stopCycle entering exiting e)
    ≤ capacity (stopCycle entering exiting e).
Proof.
  intros [Hen Hex] Hload.
  destruct (stopCycle_fixed e entering exiting) as (_ & _ & _ & -> & _).
  rewrite stopCycle_passengers by lia. lia.
Qed.

Lemma run_load_bounded acts e :
  0 ≤ currentPassengers e ≤ capacity e →
  draws_valid acts e →
  0 ≤ currentPassengers (run acts e) ≤ capacity (run acts e).
Proof.
  revert e. induction acts as [| a acts IH]; intros e Hload Hdraws; [done |].
  destruct Hdraws as [Hdraw Hrest]. simpl. apply IH; [| done].
  apply (act_preserves (λ x, 0 ≤ currentPassengers x ≤ capacity x)); try done.
  - intros x y (_ & _ & _ & Hc & Hp & _). by rewrite Hc, Hp.
  - intros x floor type emergency.
    destruct (requestFloor_request_only x floor type emergency)
      as (_ & _ & _ & _ & Hc & Hp & _).
    by rewrite Hc, Hp.
  - intros x. destruct (move_fields x) as (_ & _ & _ & Hc & Hp & _).
    by rewrite Hc, Hp.
  - intros x calls entering exiting -> Hsame Hx.
    apply stopCycle_load_bounded; [| done].
    by apply (validity_of_draw e).
Qed.

End RunInvariants.

(** X5: on every run of a car built with a nonnegative capacity, as long
    as each boarding draw is in [0, 5] and each alighting draw is in
    [0, min(5, currentPassengers)] (what the two distributions of
    [simulatePassengers] produce), the head count stays between 0 and
    [capacity]. *)
Theorem run_passengers_bounded (acts : list Action) (n floors cap : Z) :
  0 ≤ cap →
  draws_valid acts (newElevator n floors cap) →
  let e := run acts (newElevator n floors cap) in
  0 ≤ currentPassengers e ≤ capacity e ∧ capacity e = cap.
Proof.
  intros Hcap Hdraws e. subst e. split.
  - apply run_load_bounded; [simpl; lia | done].
  - apply (run_preserves (λ x, capacity x = cap)); try done.
    + intros x y (_ & _ & _ & Hc & _). by rewrite Hc.
    + intros x floor type emergency.
      destruct (requestFloor_request_only x floor type emergency)
        as (_ & _ & _ & _ & Hc & _).
      by rewrite Hc.
    + intros x. destruct (move_fields x) as (_ & _ & _ & Hc & _).
      by rewrite Hc.
    + intros x entering exiting.
      destruct (stopCycle_fixed x entering exiting) as (_ & _ & _ & Hc & _).
      by rewrite Hc.
Qed.

Lemma run_passengers_bounded_witness :
  let acts := [ActRequest 2 INTERNAL false; ActControl [] 5 0;
               ActRequest 1 INTERNAL false; ActControl [] 4 2] in
  let e := run acts (newElevator 1 10 3) in
  0 ≤ currentPassengers e ≤ capacity e ∧ capacity e = 3.
Proof.
  apply (run_passengers_bounded
           [ActRequest 2 INTERNAL false; ActControl [] 5 0;
            ActRequest 1 INTERNAL false; ActControl [] 4 2] 1 10 3).
  - lia.
  - vm_compute. repeat split; congruence.
Defined.

Section MoreRunInvariants.

Implicit Types (e : Elevator) (acts : list Action).

Lemma run_never_overloaded acts e :
  overloaded e = false ∧ count is_overload (events e) = 0 →
  draws_valid acts e →
  overloaded (run acts e) = false
  ∧ count is_overload (events (run acts e)) = 0.
Proof.
  revert e. induction acts as [| a acts IH]; intros e Hinv Hdraws; [done |].
  destruct Hdraws as [Hdraw Hrest]. simpl. apply IH; [| done].
  apply (act_preserves
           (λ x, overloaded x = false ∧ count is_overload (events x) = 0));
    try done.
  - intros x y Hco [Hov Hcnt].
    rewrite (count_control_only is_overload x y); [| by intros [] | done].
    destruct Hco as (_ & _ & _ & _ & _ & -> & _). done.
  - intros x floor type emergency [Hov Hcnt].
    pose proof (requestFloor_request_only x floor type emergency) as Hro.
    rewrite (count_request_only is_overload x _); [| by intros [] | done].
    destruct Hro as (_ & _ & _ & _ & _ & _ & _ & -> & _). done.
  - intros x [Hov Hcnt].
    destruct (move_fields x) as (_ & _ & _ & _ & _ & _ & -> & _).
    destruct (move_motion x) as (_ & _ & ->).
    split; [done |]. rewrite count_app, Hcnt.
    by destruct (bool_decide _).
  - intros x calls entering exiting -> Hsame [Hov Hcnt].
    split; [apply stopCycle_overloaded |].
    destruct Hdraw as [_ Hex].
    rewrite stopCycle_events by (done || lia).
    rewrite count_app, Hcnt. reflexivity.
Qed.

Lemma hall_entries_pressed_request e (floor : Z) (type : RequestType)
    (emergency : bool) :
  hall_entries_pressed e →
  hall_entries_pressed (requestFloor floor type emergency e).2.
Proof.
  intros Hinv. unfold requestFloor.
  case_bool_decide; [done |].
  destruct (maintenanceMode e && negb emergency); [done |].
  destruct emergency; [done |].
  destruct type; simpl.
  - by case_bool_decide.
  - unfold hall_entries_pressed. simpl. apply map_Forall_lookup.
    intros g p. rewrite lookup_press. case_decide.
    + by intros [= <-].
    + apply Hinv.
  - unfold hall_entries_pressed. simpl. apply map_Forall_lookup.
    intros g p. rewrite lookup_press. case_decide.
    + intros [= <-]. simpl. apply orb_true_r.
    + apply Hinv.
Qed.

Lemma run_hall_entries_pressed acts e :
  hall_entries_pressed e → hall_entries_pressed (run acts e).
Proof.
  apply (run_preserves hall_entries_pressed).
  - intros x y (_ & _ & _ & _ & _ & _ & _ & Hx & _).
    unfold hall_entries_pressed. by rewrite Hx.
  - intros x floor type emergency. apply hall_entries_pressed_request.
  - intros x. destruct (move_fields x) as (_ & _ & _ & _ & _ & _ & _ & _ & Hx & _).
    unfold hall_entries_pressed. by rewrite Hx.
  - intros x entering exiting Hinv. unfold hall_entries_pressed.
    rewrite stopCycle_erases_hall_entry. by apply map_Forall_delete.
Qed.

Lemma hasExternalRequests_false e :
  hasExternalRequests e = false →
  ∀ f p, externalRequests e !! f = Some p → pressed (f, p) = false.
Proof.
  intros Hnone f p Hp.
  destruct (pressed (f, p)) eqn:Hpressed; [| done].
  assert (hasExternalRequests e = true) as Hsome; [| congruence].
  unfold hasExternalRequests. apply existsb_exists.
  exists (f, p). split; [| done].
  apply list_elem_of_In. by apply elem_of_requests_in_order.
Qed.

Lemma run_counters acts e :
  totalFloorsTraveled e = count is_arrived (events e)
  ∧ totalTrips e = count is_opened (events e) →
  totalFloorsTraveled (run acts e) = count is_arrived (events (run acts e))
  ∧ totalTrips (run acts e) = count is_opened (events (run acts e)).
Proof.
  apply (run_preserves
           (λ x, totalFloorsTraveled x = count is_arrived (events x)
                 ∧ totalTrips x = count is_opened (events x))).
  - intros x y Hco [Hf Ht].
    rewrite (count_control_only is_arrived x y); [| by intros [] | done].
    rewrite (count_control_only is_opened x y); [| by intros [] | done].
    destruct Hco as (_ & _ & _ & _ & _ & _ & _ & _ & -> & -> & _). done.
  - intros x floor type emergency [Hf Ht].
    pose proof (requestFloor_request_only x floor type emergency) as Hro.
    rewrite (count_request_only is_arrived x _); [| by intros [] | done].
    rewrite (count_request_only is_opened x _); [| by intros [] | done].
    destruct Hro as (_ & _ & _ & _ & _ & _ & _ & _ & _ & _ & -> & -> & _).
    done.
  - intros x [Hf Ht].
    destruct (move_fields x) as (_ & Hst & _ & _ & _ & _ & _ & _ & _ & _ & _ & _ & ->).
    destruct (move_motion x) as (_ & -> & ->).
    rewrite !count_app, <- Hf, <- Ht.
    destruct (state x); simpl; lia.
  - intros x entering exiting [Hf Ht].
    destruct (stopCycle_fixed x entering exiting)
      as (_ & _ & _ & _ & _ & _ & _ & ->).
    destruct (stopCycle_requests x entering exiting) as (_ & _ & ->).
    destruct (stopCycle_log x entering exiting) as (a & b & c & d & w & ->).
    rewrite !count_app, <- Hf, <- Ht. destruct w; simpl; lia.
Qed.

End MoreRunInvariants.

Lemma count_nonneg (P : Event → bool) (l : list Event) : 0 ≤ count P l.
Proof. induction l as [| ev l IH]; simpl; [lia |]. destruct (P ev); lia. Qed.

Lemma count_zero_absent (P : Event → bool) (l : list Event) (ev : Event) :
  count P l = 0 → P ev = true → ev ∉ l.
Proof.
  intros Hzero HP Hin. induction l as [| ev' l IH]; simpl in *.
  - by apply elem_of_nil in Hin.
  - pose proof (count_nonneg P l).
    apply elem_of_cons in Hin as [<- | Hin].
    + rewrite HP in Hzero. lia.
    + apply IH; [| done]. destruct (P ev'); lia.
Qed.

(** X6: on every run of a car whose alighting draws are never negative
    (every draw is one [simulatePassengers] can produce), the [overloaded]
    flag is never set and no overload warning is ever logged: the test
    [currentPassengers > capacity] comes after the clamp of the boarding
    count and cannot succeed. *)
Theorem run_overload_never_raised (acts : list Action) (n floors cap : Z) :
  draws_valid acts (newElevator n floors cap) →
  let e := run acts (newElevator n floors cap) in
  overloaded e = false ∧ EvOverloadWarning ∉ events e.
Proof.
  intros Hdraws e. subst e.
  destruct (run_never_overloaded acts (newElevator n floors cap))
    as [Hov Hcnt]; [done | done |].
  split; [exact Hov |]. by apply (count_zero_absent is_overload).
Qed.

Lemma run_overload_never_raised_witness :
  let acts := [ActRequest 2 INTERNAL false; ActControl [] 5 0;
               ActRequest 1 INTERNAL false; ActControl [] 5 1] in
  let e := run acts (newElevator 1 10 2) in
  overloaded e = false ∧ EvOverloadWarning ∉ events e.
Proof.
  apply (run_overload_never_raised
           [ActRequest 2 INTERNAL false; ActControl [] 5 0;
            ActRequest 1 INTERNAL false; ActControl [] 5 1] 1 10 2).
  vm_compute. repeat split; congruence.
Defined.

(** X7: on every run of a car, each entry of [externalRequests] has at
    least one of its two bits set (an entry is created only to set a bit,
    and erased when its last bit is cleared), so [hasExternalRequests] is
    true exactly when the map is not empty. *)
Theorem run_hall_entries_have_a_bit (acts : list Action) (n floors cap : Z) :
  let e := run acts (newElevator n floors cap) in
  (∀ f p, externalRequests e !! f = Some p → p.1 = true ∨ p.2 = true)
  ∧ (hasExternalRequests e = true ↔ externalRequests e ≠ ∅).
Proof.
  intros e.
  assert (hall_entries_pressed e) as Hinv.
  { apply run_hall_entries_pressed. apply map_Forall_empty. }
  split.
  - intros f p Hp. apply orb_prop. apply (Hinv f p Hp).
  - split.
    + intros Hsome Hempty.
      apply hasExternalRequests_true in Hsome as (f & p & Hp & _).
      by rewrite Hempty, lookup_empty in Hp.
    + intros Hne. destruct (hasExternalRequests e) eqn:Hnone; [done |].
      exfalso. apply Hne. apply map_empty. intros f.
      destruct (externalRequests e !! f) as [p |] eqn:Hp; [| done].
      pose proof (hasExternalRequests_false e Hnone f p Hp) as Hoff.
      pose proof (Hinv f p Hp) as Hon. unfold pressed in Hoff.
      simpl in *. congruence.
Qed.

(** X8: on every run of a car the two counters agree with the log:
    [totalFloorsTraveled] is the number of arrival records and
    [totalTrips] is the number of door-opening records. *)
Theorem run_counters_match_log (acts : list Action) (n floors cap : Z) :
  let e := run acts (newElevator n floors cap) in
  totalFloorsTraveled e = count is_arrived (events e)
  ∧ totalTrips e = count is_opened (events e).
Proof. intros e. by apply run_counters. Qed.

Lemma still_car (Q : Prop) (e e' : Elevator) :
  currentFloor e' = currentFloor e →
  currentPassengers e' = currentPassengers e →
  totalTrips e' = totalTrips e →
  totalFloorsTraveled e' = totalFloorsTraveled e →
  Z.abs (currentFloor e' - currentFloor e) ≤ 1
  ∧ totalFloorsTraveled e' - totalFloorsTraveled e
    = Z.abs (currentFloor e' - currentFloor e)
  ∧ (Q →
     currentFloor e' = currentFloor e
     ∧ currentPassengers e' = currentPassengers e
     ∧ totalTrips e' = totalTrips e
     ∧ totalFloorsTraveled e' = totalFloorsTraveled e).
Proof.
  intros Hf Hp Ht Htf. rewrite Hf, Htf.
  split; [lia |]. split; [lia | done].
Qed.

Lemma still_car_control_only (Q : Prop) (e e' : Elevator) :
  control_only e e' →
  Z.abs (currentFloor e' - currentFloor e) ≤ 1
  ∧ totalFloorsTraveled e' - totalFloorsTraveled e
    = Z.abs (currentFloor e' - currentFloor e)
  ∧ (Q →
     currentFloor e' = currentFloor e
     ∧ currentPassengers e' = currentPassengers e
     ∧ totalTrips e' = totalTrips e
     ∧ totalFloorsTraveled e' = totalFloorsTraveled e).
Proof.
  intros (_ & Hf & _ & _ & Hp & _ & _ & _ & Ht & Htf & _).
  by apply still_car.
Qed.

(** X9: no action moves the car by more than one floor, and
    [totalFloorsTraveled] grows by exactly the distance moved.  The public
    calls ([requestFloor], [resetEmergency], [setMaintenanceMode], [stop])
    change neither the floor, nor the head count, nor the counters: only
    the control loop does. *)
Theorem act_motion (a : Action) (e : Elevator) :
  Z.abs (currentFloor (act a e) - currentFloor e) ≤ 1
  ∧ totalFloorsTraveled (act a e) - totalFloorsTraveled e
    = Z.abs (currentFloor (act a e) - currentFloor e)
  ∧ ((∀ calls entering exiting, a ≠ ActControl calls entering exiting) →
     currentFloor (act a e) = currentFloor e
     ∧ currentPassengers (act a e) = currentPassengers e
     ∧ totalTrips (act a e) = totalTrips e
     ∧ totalFloorsTraveled (act a e) = totalFloorsTraveled e).
Proof.
  destruct a as [floor type emergency | | mode | | calls entering exiting].
  - simpl.
    destruct (requestFloor_request_only e floor type emergency)
      as (_ & Hf & _ & _ & _ & Hp & _ & _ & _ & _ & Ht & Htf & _).
    by apply still_car.
  - apply still_car_control_only.
    apply (deliver_control_only CallResetEmergency).
  - apply still_car_control_only.
    apply (deliver_control_only (CallSetMaintenanceMode mode)).
  - apply still_car_control_only. apply (deliver_control_only CallStop).
  - assert (Z.abs (currentFloor (act (ActControl calls entering exiting) e)
                   - currentFloor e) ≤ 1
            ∧ totalFloorsTraveled (act (ActControl calls entering exiting) e)
              - totalFloorsTraveled e
              = Z.abs (currentFloor (act (ActControl calls entering exiting) e)
                       - currentFloor e)) as [Hone Hdist].
    { simpl.
      destruct (control_iteration calls entering exiting e)
        as [e' | |] eqn:Hit; [| lia | lia].
      apply control_iteration_cases in Hit as [Hco | (e3 & He3 & -> & _)].
      { destruct (still_car_control_only True e e' Hco) as (? & ? & _).
        done. }
      destruct (updateState_control_only e3)
        as (_ & -> & _ & _ & _ & _ & _ & _ & _ & -> & _).
      assert (currentFloor e3 = currentFloor (move (chooseDirection e))
              ∧ totalFloorsTraveled e3
                = totalFloorsTraveled (move (chooseDirection e)))
        as [-> ->].
      { destruct He3 as [-> | [_ ->]]; [done |].
        by destruct (stopCycle_fixed (move (chooseDirection e))
                       entering exiting)
          as (_ & ? & _ & _ & _ & _ & _ & ?). }
      destruct (move_motion (chooseDirection e)) as (-> & -> & _).
      destruct (chooseDirection_control_only e)
        as (_ & -> & _ & _ & _ & _ & _ & _ & _ & -> & _).
      destruct (state (chooseDirection e)); simpl; lia. }
    split; [exact Hone |]. split; [exact Hdist |].
    intros Hne. by destruct (Hne calls entering exiting).
Qed.

(** ** More on the next target *)

Section NoTarget.

Implicit Types (e : Elevator).

Lemma on_the_way_pressed (cur : Z) (req : Z * (bool * bool)) :
  on_the_way cur req = true → pressed req = true.
Proof.
  unfold on_the_way, pressed.
  by destruct req as [f [[] []]].
Qed.

(** A scan whose condition holds of no entry returns what it was given. *)
Lemma closest_scan_unchanged (cond : Z * (bool * bool) → bool) (cur : Z)
    (reqs : list (Z * (bool * bool))) (minDistance closestFloor : Z) :
  (∀ req, req ∈ reqs → cond req = false) →
  closest_scan cond cur reqs minDistance closestFloor
  = (minDistance, closestFloor).
Proof.
  revert minDistance closestFloor.
  induction reqs as [| req reqs IH]; intros minDistance closestFloor Hnone;
    [done |].
  simpl. rewrite (Hnone req) by by left. simpl.
  apply IH. intros req' Hin. apply Hnone. by right.
Qed.

Lemma findNextFloor_no_request e :
  ¬ pending e → findNextFloor e = -1.
Proof.
  intros Hnone.
  assert (internalRequests e = ∅) as Hempty.
  { destruct (decide (internalRequests e = ∅)); [done |].
    exfalso. apply Hnone. by left. }
  assert (hasExternalRequests e = false) as Hhall.
  { destruct (hasExternalRequests e) eqn:Hh; [| done].
    exfalso. apply Hnone. by right. }
  assert (∀ req, req ∈ requests_in_order (externalRequests e) →
                 pressed req = false) as Hoff.
  { intros [f p] Hin. apply elem_of_requests_in_order in Hin.
    by apply (hasExternalRequests_false e Hhall f p). }
  unfold findNextFloor.
  rewrite Hempty. change (floors_in_order ∅) with (@nil Z). cbv zeta.
  rewrite closest_scan_unchanged.
  - rewrite bool_decide_eq_false_2 by (intros H; by apply H).
    by rewrite closest_scan_unchanged.
  - intros req Hin. specialize (Hoff req Hin).
    destruct (on_the_way (currentFloor e) req) eqn:Hway; [| done].
    apply on_the_way_pressed in Hway. congruence.
Qed.

Lemma direction_moving (target cur : Z) :
  direction target cur = MOVING_UP ∨ direction target cur = MOVING_DOWN.
Proof. unfold direction. destruct (bool_decide _); eauto. Qed.

End NoTarget.

(** X10: for a car in a building of fewer than [INT_MAX] floors whose
    requested floors are floors of the building ([floors_valid]),
    [findNextFloor] answers -1 exactly when nothing is requested, and
    [updateState] leaves the car [IDLE] exactly when nothing is requested;
    otherwise it leaves it [MOVING_UP] or [MOVING_DOWN]. *)
Theorem updateState_idle_iff (e : Elevator) :
  floors_valid e →
  (findNextFloor e = -1 ↔ ¬ pending e)
  ∧ (state (updateState e) = IDLE ↔ ¬ pending e)
  ∧ (pending e →
     state (updateState e) = MOVING_UP ∨ state (updateState e) = MOVING_DOWN).
Proof.
  intros Hvalid.
  assert (pending e →
          state (updateState e) = MOVING_UP
          ∨ state (updateState e) = MOVING_DOWN) as Hmoving.
  { intros Hpend. unfold updateState.
    replace (bool_decide (internalRequests e = ∅)
             && negb (hasExternalRequests e)) with false.
    2: { apply pending_test in Hpend. symmetry.
         destruct (bool_decide _), (hasExternalRequests e); done. }
    pose proof (findNextFloor_pending e Hvalid Hpend) as Hrange.
    rewrite bool_decide_eq_true_2 by lia. simpl.
    apply direction_moving. }
  split; [| split; [| exact Hmoving]].
  - split.
    + intros Hnone Hpend.
      pose proof (findNextFloor_pending e Hvalid Hpend). lia.
    + apply findNextFloor_no_request.
  - split.
    + intros Hidle Hpend. destruct (Hmoving Hpend); congruence.
    + intros Hnone. unfold updateState.
      destruct (bool_decide (internalRequests e = ∅)
                && negb (hasExternalRequests e)); [done |].
      rewrite (findNextFloor_no_request e Hnone).
      by rewrite bool_decide_eq_false_2 by (intros H; by apply H).
Qed.

Lemma updateState_idle_iff_witness :
  let e := (requestFloor 7 EXTERNAL_DOWN false (newElevator 1 10 5)).2 in
  (findNextFloor e = -1 ↔ ¬ pending e)
  ∧ (state (updateState e) = IDLE ↔ ¬ pending e)
  ∧ (pending e →
     state (updateState e) = MOVING_UP ∨ state (updateState e) = MOVING_DOWN).
Proof.
  apply (updateState_idle_iff
           (requestFloor 7 EXTERNAL_DOWN false (newElevator 1 10 5)).2).
  apply (requestFloor_inv (newElevator 1 10 5) 7 EXTERNAL_DOWN false).
  apply newElevator_inv. unfold INT_MAX. lia.
Defined.

(** X11: in a building of fewer than [INT_MAX] floors ([floors_in_shaft]),
    with no car call and no hall call on the way, [findNextFloor] falls
    back to the pressed hall floor nearest to the car, the lowest one when
    two are equally near. *)
Theorem findNextFloor_hall_fallback (e : Elevator) (f : Z) :
  internalRequests e = ∅ →
  floors_in_shaft e →
  (∀ g, ¬ hall_on_the_way e g) →
  hall_pressed e f →
  hall_pressed e (findNextFloor e)
  ∧ ∀ f', hall_pressed e f' →
      Z.abs (findNextFloor e - currentFloor e) ≤ Z.abs (f' - currentFloor e)
      ∧ (Z.abs (f' - currentFloor e) = Z.abs (findNextFloor e - currentFloor e)
         → findNextFloor e ≤ f').
Proof.
  intros Hempty (Hkeys & Hcur & Hint) Hnoway (p & Hp & Hpressed).
  unfold findNextFloor.
  rewrite Hempty. change (floors_in_order ∅) with (@nil Z). cbv zeta.
  rewrite sentinel_no_wrap by (done || lia).
  rewrite closest_scan_unchanged.
  2: { intros [g q] Hin. apply elem_of_requests_in_order in Hin.
       destruct (on_the_way (currentFloor e) (g, q)) eqn:Hway; [| done].
       destruct (Hnoway g). by exists q. }
  rewrite bool_decide_eq_false_2 by (intros H; by apply H).
  destruct (closest_scan_spec pressed (currentFloor e)
              (requests_in_order (externalRequests e))
              (requests_in_order_sorted _) (maxFloors e + 1) (-1))
    as [[_ Hmin] | ([r q] & Hin & Hc & -> & Hcloser & Hbest)].
  - exfalso. specialize (Hmin (f, p)).
    rewrite elem_of_requests_in_order in Hmin.
    specialize (Hmin Hp Hpressed). unfold distance in Hmin. simpl in Hmin.
    pose proof (Hkeys f p Hp) as Hf. simpl in Hf. lia.
  - apply elem_of_requests_in_order in Hin. simpl.
    split; [by exists q |].
    intros f' (p' & Hp' & Hpressed').
    specialize (Hbest (f', p')).
    rewrite elem_of_requests_in_order in Hbest.
    specialize (Hbest Hp' Hpressed'). unfold distance in Hbest.
    simpl in Hbest. done.
Qed.

Lemma findNextFloor_hall_fallback_witness :
  hall_pressed fallback_car (findNextFloor fallback_car)
  ∧ ∀ f', hall_pressed fallback_car f' →
      Z.abs (findNextFloor fallback_car - 5) ≤ Z.abs (f' - 5)
      ∧ (Z.abs (f' - 5) = Z.abs (findNextFloor fallback_car - 5)
         → findNextFloor fallback_car ≤ f').
Proof.
  apply (findNextFloor_hall_fallback fallback_car 3).
  - reflexivity.
  - split; [| split].
    + simpl. apply map_Forall_insert_2; [lia |].
      apply map_Forall_insert_2; [lia |]. apply map_Forall_empty.
    + simpl. lia.
    + reflexivity.
  - intros g (p & Hp & Hway). simpl in Hp.
    apply lookup_insert_Some in Hp as [[<- <-] | [_ Hp]]; [done |].
    apply lookup_insert_Some in Hp as [[<- <-] | [_ Hp]]; [done |].
    by rewrite lookup_empty in Hp.
  - exists (true, false). by split.
Defined.

Example findNextFloor_fallback_car : findNextFloor fallback_car = 3.
Proof. reflexivity. Qed.

(** ** Maintenance handling *)

Section Maintenance.

Implicit Types (e : Elevator) (calls : list ControlCall).

Lemma deliver_doorOpen (c : ControlCall) e :
  doorOpen (deliver c e) = doorOpen e ∧ state (deliver c e) = state e.
Proof.
  destruct c as [| | | mode | floor type]; simpl; try done.
  by destruct (requestFloor_request_only e floor type true)
    as (_ & _ & ? & _ & _ & _ & ? & _).
Qed.

Lemma poll_while_doorOpen (latch : Elevator → bool) calls e e' :
  poll_while latch calls e = Some e' →
  doorOpen e' = doorOpen e ∧ state e' = state e.
Proof.
  revert e. induction calls as [| c calls IH]; intros e; simpl.
  - destruct (latch e && running e); [done |]. by intros [= ->].
  - destruct (latch e && running e); [| by intros [= ->]].
    intros Hrest. destruct (IH _ Hrest) as [-> ->]. apply deliver_doorOpen.
Qed.

Lemma poll_while_maintenance_returns calls e :
  CallSetMaintenanceMode false ∈ calls →
  is_Some (poll_while maintenanceMode calls e).
Proof.
  revert e. induction calls as [| c calls IH]; intros e Hin.
  - by apply elem_of_nil in Hin.
  - simpl. destruct (maintenanceMode e && running e) eqn:Hl; [| eauto].
    apply elem_of_cons in Hin as [<- | Hin].
    + simpl. destruct calls; simpl; eauto.
    + by apply IH.
Qed.

End Maintenance.

(** X12: [handleMaintenance] returns once [setMaintenanceMode(false)]
    arrives.  The car it returns differs from the car it was called on at
    most in [state], the atomics and control records of the log: floor,
    head count, both request collections, counters and [doorOpen] are
    untouched.  If the car is still running, the latch is clear and the
    car is [IDLE]; if it was stopped meanwhile, it stays in [MAINTENANCE]. *)
Theorem handleMaintenance_keeps_car (calls : list ControlCall)
    (e : Elevator) :
  CallSetMaintenanceMode false ∈ calls →
  ∃ e', handleMaintenance calls e = Some e'
    ∧ control_only e e'
    ∧ doorOpen e' = doorOpen e
    ∧ (running e' = true → maintenanceMode e' = false ∧ state e' = IDLE)
    ∧ (running e' = false → state e' = MAINTENANCE).
Proof.
  intros Hoff.
  destruct (poll_while_maintenance_returns calls (set_state MAINTENANCE e) Hoff)
    as [e1 Hwait].
  assert (handleMaintenance calls e
          = Some (if running e1
                  then set_state IDLE (logEvent EvMaintenanceEnded e1)
                  else e1)) as Hret.
  { unfold handleMaintenance. by rewrite Hwait. }
  eexists. split; [exact Hret |].
  split; [by apply (handleMaintenance_control_only calls) |].
  destruct (poll_while_doorOpen _ _ _ _ Hwait) as [Hdoor Hstate].
  apply poll_while_done in Hwait.
  destruct (running e1) eqn:Hrun; simpl.
  - rewrite andb_true_r in Hwait. repeat split; try done; congruence.
  - repeat split; try done; congruence.
Qed.

Lemma handleMaintenance_keeps_car_witness :
  let e := setMaintenanceMode true
             (requestFloor 9 INTERNAL false (newElevator 1 10 5)).2 in
  ∃ e', handleMaintenance [CallNone; CallSetMaintenanceMode false] e = Some e'
    ∧ control_only e e'
    ∧ doorOpen e' = doorOpen e
    ∧ (running e' = true → maintenanceMode e' = false ∧ state e' = IDLE)
    ∧ (running e' = false → state e' = MAINTENANCE).
Proof.
  apply (handleMaintenance_keeps_car [CallNone; CallSetMaintenanceMode false]).
  apply elem_of_cons. right. apply elem_of_cons. by left.
Defined.

(** ** More on the dispatcher *)

Section Fleet.

Implicit Types (e : Elevator) (sys : ElevatorControlSystem).
Implicit Types (floor : Z) (type : RequestType).

(** The loop returns the first car among those with the least score, when
    some score is below the score it starts with. *)
Lemma findBest_loop_first_min (es : list Elevator) floor type :
  ∀ (i bestIndex : nat) (bestScore : Z),
    (findBest_loop es i floor type bestIndex bestScore = bestIndex
     ∧ ∀ e, e ∈ es → bestScore ≤ calculateElevatorScore e floor type)
    ∨ ∃ (k : nat) car,
        findBest_loop es i floor type bestIndex bestScore = (i + k)%nat
        ∧ es !! k = Some car
        ∧ calculateElevatorScore car floor type < bestScore
        ∧ ∀ (j : nat) e, es !! j = Some e →
            calculateElevatorScore car floor type
            ≤ calculateElevatorScore e floor type
            ∧ ((j < k)%nat →
               calculateElevatorScore car floor type
               < calculateElevatorScore e floor type).
Proof.
  induction es as [| e es IH]; intros i bestIndex bestScore; simpl.
  - left. split; [done |]. intros e He. by apply elem_of_nil in He.
  - case_bool_decide as Hlt.
    + right.
      destruct (IH (S i) i (calculateElevatorScore e floor type))
        as [[-> Hall] | (k & car & -> & Hk & Hlt' & Hmin)].
      * exists 0%nat, e. split; [lia |]. split; [done |]. split; [done |].
        intros [| j] e' He'; simpl in He'.
        -- injection He' as <-. split; [lia | lia].
        -- split; [| lia]. apply Hall. by eapply list_elem_of_lookup_2.
      * exists (S k), car. split; [lia |]. split; [done |]. split; [lia |].
        intros [| j] e' He'; simpl in He'.
        -- injection He' as <-. split; [lia | intros _; lia].
        -- destruct (Hmin j e' He') as [Hle Hfirst].
           split; [done |]. intros Hj. apply Hfirst. lia.
    + destruct (IH (S i) bestIndex bestScore)
        as [[-> Hall] | (k & car & -> & Hk & Hlt' & Hmin)].
      * left. split; [done |]. intros e' He'.
        apply elem_of_cons in He' as [-> | He']; [lia | by apply Hall].
      * right. exists (S k), car.
        split; [lia |]. split; [done |]. split; [done |].
        intros [| j] e' He'; simpl in He'.
        -- injection He' as <-. split; [lia | intros _; lia].
        -- destruct (Hmin j e' He') as [Hle Hfirst].
           split; [done |]. intros Hj. apply Hfirst. lia.
Qed.

Lemma request_only_refl e : request_only e e.
Proof.
  unfold request_only. repeat (split; [reflexivity |]).
  exists []. by rewrite app_nil_r.
Qed.

Lemma forward_lookup (i : nat) floor type sys (j : nat) :
  elevators (forward i floor type false sys) !! j
  = if decide (i = j)
    then (λ e, (requestFloor floor type false e).2) <$> elevators sys !! j
    else elevators sys !! j.
Proof.
  unfold forward. simpl. rewrite list_lookup_alter.
  by destruct (decide (i = j)) as [-> |].
Qed.

Lemma requestFloor_in_maintenance e floor type :
  maintenanceMode e = true → (requestFloor floor type false e).2 = e.
Proof.
  intros Hmaint. unfold requestFloor.
  case_bool_decide; [done |]. by rewrite Hmaint.
Qed.

Lemma requestFloor_latches e floor type :
  1 ≤ floor ≤ maxFloors e → (requestFloor floor type true e).2 = latched e.
Proof.
  intros Hrange. unfold requestFloor.
  rewrite in_range_test by done. by rewrite andb_false_r.
Qed.

End Fleet.

(** X13: when some car of the fleet scores below [INT_MAX],
    [findBestElevator] returns the index of a car whose score is the least
    of the fleet, and every car before it scores strictly more: ties go to
    the lowest index. *)
Theorem findBestElevator_first_minimum (sys : ElevatorControlSystem)
    (floor : Z) (type : RequestType) (e0 : Elevator) :
  e0 ∈ elevators sys →
  calculateElevatorScore e0 floor type < INT_MAX →
  ∃ car, elevators sys !! findBestElevator sys floor type = Some car
    ∧ ∀ (j : nat) e, elevators sys !! j = Some e →
        calculateElevatorScore car floor type
        ≤ calculateElevatorScore e floor type
        ∧ ((j < findBestElevator sys floor type)%nat →
           calculateElevatorScore car floor type
           < calculateElevatorScore e floor type).
Proof.
  intros He0 Hscore. unfold findBestElevator.
  destruct (findBest_loop_first_min (elevators sys) floor type 0 0 INT_MAX)
    as [[_ Hall] | (k & car & -> & Hk & _ & Hmin)].
  - specialize (Hall e0 He0). lia.
  - exists car. split; [done |]. exact Hmin.
Qed.

(** Cars 1 and 2 of [sample_fleet] are both two floors from floor 4 and
    tie at score -3; the request goes to car 1. *)
Lemma findBestElevator_first_minimum_witness :
  findBestElevator sample_fleet 4 INTERNAL = 0%nat
  ∧ ∃ car, elevators sample_fleet !! findBestElevator sample_fleet 4 INTERNAL
           = Some car
    ∧ ∀ (j : nat) e, elevators sample_fleet !! j = Some e →
        calculateElevatorScore car 4 INTERNAL
        ≤ calculateElevatorScore e 4 INTERNAL
        ∧ ((j < findBestElevator sample_fleet 4 INTERNAL)%nat →
           calculateElevatorScore car 4 INTERNAL
           < calculateElevatorScore e 4 INTERNAL).
Proof.
  split; [reflexivity |].
  apply (findBestElevator_first_minimum sample_fleet 4 INTERNAL
           (set_currentFloor 6 (newElevator 2 10 5))).
  - apply elem_of_cons. right. apply elem_of_cons. by left.
  - vm_compute. reflexivity.
Defined.

(** X14: [requestElevator] never changes the number of cars nor the
    fleet's floor count; a floor outside [1, maxFloors] leaves the whole
    fleet as it was; a request that is not an emergency changes at most one
    car; and whatever the request, every car keeps its floor, state, head
    count, doors and counters: only its request collections, its emergency
    latch and its log can differ. *)
Theorem requestElevator_frame (floor : Z) (type : RequestType)
    (emergency : bool) (preferredElevator : Z) (sys : ElevatorControlSystem) :
  let sys' := requestElevator floor type emergency preferredElevator sys in
  length (elevators sys') = length (elevators sys)
  ∧ systemMaxFloors sys' = systemMaxFloors sys
  ∧ (floor < 1 ∨ systemMaxFloors sys < floor → sys' = sys)
  ∧ (emergency = false →
     ∃ i : nat, ∀ j : nat, j ≠ i →
       elevators sys' !! j = elevators sys !! j)
  ∧ (∀ (j : nat) e', elevators sys' !! j = Some e' →
       ∃ e, elevators sys !! j = Some e ∧ request_only e e').
Proof.
  intros sys'. subst sys'. unfold requestElevator.
  assert (∀ i : nat,
            let s := forward i floor type false sys in
            length (elevators s) = length (elevators sys)
            ∧ systemMaxFloors s = systemMaxFloors sys
            ∧ (emergency = false →
               ∃ i0 : nat, ∀ j : nat, j ≠ i0 →
                 elevators s !! j = elevators sys !! j)
            ∧ (∀ (j : nat) e', elevators s !! j = Some e' →
                 ∃ e, elevators sys !! j = Some e ∧ request_only e e'))
    as Hforward.
  { intros i s. subst s. split; [apply length_alter |]. split; [done |].
    split.
    - intros _. exists i. intros j Hj. rewrite forward_lookup.
      by rewrite decide_False.
    - intros j e'. rewrite forward_lookup.
      destruct (decide (i = j)) as [-> | Hne].
      + destruct (elevators sys !! j) as [e |]; [| done].
        intros [= <-]. exists e. split; [done |].
        apply requestFloor_request_only.
      + intros He'. exists e'. split; [done | apply request_only_refl]. }
  case_bool_decide as Hrange.
  { split; [done |]. split; [done |]. split; [done |]. split.
    - intros _. by exists 0%nat.
    - intros j e' He'. exists e'. split; [done | apply request_only_refl]. }
  destruct emergency.
  { simpl. split; [apply length_fmap |]. split; [done |].
    split; [by intros ? |]. split; [done |].
    intros j e'. rewrite list_lookup_fmap.
    destruct (elevators sys !! j) as [e |]; [| done].
    intros [= <-]. exists e. split; [done |]. apply requestFloor_request_only. }
  destruct (bool_decide (0 < preferredElevator) && _).
  - destruct (Hforward (Z.to_nat (preferredElevator - 1)))
      as (H1 & H2 & H4 & H5).
    split; [done |]. split; [done |]. split; [by intros ? |]. by split.
  - destruct (Hforward (findBestElevator sys floor type))
      as (H1 & H2 & H4 & H5).
    split; [done |]. split; [done |]. split; [by intros ? |]. by split.
Qed.

Lemma emergency_broadcast_latches (floor : Z) (type : RequestType)
    (preferredElevator : Z) (sys : ElevatorControlSystem) :
  cars_match sys →
  1 ≤ floor ≤ systemMaxFloors sys →
  elevators (requestElevator floor type true preferredElevator sys)
  = latched <$> elevators sys.
Proof.
  intros Hcars Hrange. unfold requestElevator.
  rewrite bool_decide_eq_false_2 by lia. simpl.
  apply Forall_fmap_ext_1. eapply Forall_impl; [exact Hcars |].
  intros e He. simpl in He. apply requestFloor_latches. lia.
Qed.

(** X15: an emergency request for a floor of the building reaches every
    car of a fleet built by the constructor, whatever car is named as
    preferred and whatever the cars' maintenance latches are: each car is
    left exactly as it was, with [emergencyStop] set and one record added
    to its log. *)
Theorem requestElevator_emergency_broadcast (floor : Z) (type : RequestType)
    (preferredElevator : Z) (sys : ElevatorControlSystem) :
  cars_match sys →
  1 ≤ floor ≤ systemMaxFloors sys →
  elevators (requestElevator floor type true preferredElevator sys)
  = latched <$> elevators sys
  ∧ ∀ e, e ∈ elevators (requestElevator floor type true preferredElevator sys)
         → emergencyStop e = true.
Proof.
  intros Hcars Hrange.
  rewrite emergency_broadcast_latches by done. split; [done |].
  intros e He. apply list_elem_of_fmap in He as (e0 & -> & _). done.
Qed.

Lemma newSystem_cars_match (numElevators : nat) (floors cap : Z) :
  cars_match (newSystem numElevators floors cap).
Proof.
  unfold cars_match, newSystem. simpl. apply Forall_fmap.
  by apply Forall_true.
Qed.

Lemma requestElevator_emergency_broadcast_witness :
  let sys := System.setMaintenanceMode 1 true (newSystem 3 10 5) in
  elevators (requestElevator 4 INTERNAL true 2 sys) = latched <$> elevators sys
  ∧ ∀ e, e ∈ elevators (requestElevator 4 INTERNAL true 2 sys)
         → emergencyStop e = true.
Proof.
  apply (requestElevator_emergency_broadcast 4 INTERNAL 2
           (System.setMaintenanceMode 1 true (newSystem 3 10 5))).
  - unfold cars_match. simpl. by repeat constructor.
  - simpl. lia.
Defined.

Section FleetLatches.

Implicit Types (e : Elevator) (sys : ElevatorControlSystem).

Lemma car_index (elevatorId : Z) (n : nat) :
  1 ≤ elevatorId ≤ Z.of_nat n →
  bool_decide (0 < elevatorId) && bool_decide (elevatorId ≤ Z.of_nat n) = true.
Proof.
  intros H. by rewrite !bool_decide_eq_true_2 by lia.
Qed.

Lemma no_car_index (elevatorId : Z) (n : nat) :
  elevatorId < 1 ∨ Z.of_nat n < elevatorId →
  bool_decide (0 < elevatorId) && bool_decide (elevatorId ≤ Z.of_nat n) = false.
Proof.
  intros H. apply andb_false_iff.
  destruct (decide (0 < elevatorId)).
  - right. apply bool_decide_eq_false_2. lia.
  - left. by apply bool_decide_eq_false_2.
Qed.

End FleetLatches.

(** X16: the dispatcher's [resetEmergency] and [setMaintenanceMode] do
    nothing for a car id outside [1, size]; for a valid id they assign the
    flag of car [elevatorId] (at index [elevatorId - 1]) and leave every
    other car, and that car's other fields, as they were.  After an
    emergency broadcast, resetting one car clears that car's latch only:
    every other car is still latched. *)
Theorem fleet_latch_calls (elevatorId : Z) (mode : bool)
    (sys : ElevatorControlSystem) :
  let n := length (elevators sys) in
  (elevatorId < 1 ∨ Z.of_nat n < elevatorId →
     System.resetEmergency elevatorId sys = sys
     ∧ System.setMaintenanceMode elevatorId mode sys = sys)
  ∧ (1 ≤ elevatorId ≤ Z.of_nat n →
     ∀ j : nat,
       elevators (System.resetEmergency elevatorId sys) !! j
       = (if decide (j = Z.to_nat (elevatorId - 1))
          then set_emergencyStop false <$> elevators sys !! j
          else elevators sys !! j)
       ∧ elevators (System.setMaintenanceMode elevatorId mode sys) !! j
         = (if decide (j = Z.to_nat (elevatorId - 1))
            then set_maintenanceMode mode <$> elevators sys !! j
            else elevators sys !! j))
  ∧ (1 ≤ elevatorId ≤ Z.of_nat n →
     ∀ floor type preferred (j : nat) e,
       cars_match sys → 1 ≤ floor ≤ systemMaxFloors sys →
       elevators
         (System.resetEmergency elevatorId
            (requestElevator floor type true preferred sys)) !! j = Some e →
       emergencyStop e
       = negb (bool_decide (j = Z.to_nat (elevatorId - 1)))).
Proof.
  intros n. subst n. split; [| split].
  - intros Hout. unfold System.resetEmergency, System.setMaintenanceMode.
    by rewrite no_car_index.
  - intros Hin j. unfold System.resetEmergency, System.setMaintenanceMode.
    rewrite car_index by done. simpl. rewrite !list_lookup_alter.
    destruct (decide (Z.to_nat (elevatorId - 1) = j)) as [<- | Hne].
    + rewrite !decide_True by done. split; reflexivity.
    + rewrite !decide_False by done. split; reflexivity.
  - intros Hin floor type preferred j e Hcars Hrange.
    unfold System.resetEmergency.
    rewrite emergency_broadcast_latches by done.
    rewrite length_fmap, car_index by done. simpl.
    rewrite list_lookup_alter, !list_lookup_fmap.
    destruct (decide (Z.to_nat (elevatorId - 1) = j)) as [<- | Hne].
    + destruct (elevators sys !! _) as [e0 |]; [| done].
      intros [= <-]. by rewrite bool_decide_eq_true_2.
    + destruct (elevators sys !! j) as [e0 |]; [| done].
      intros [= <-]. by rewrite bool_decide_eq_false_2.
Qed.

Lemma fleet_latch_calls_witness :
  System.resetEmergency 7 (newSystem 3 10 5) = newSystem 3 10 5
  ∧ (∀ j e,
       elevators
         (System.resetEmergency 2
            (requestElevator 4 INTERNAL true (-1) (newSystem 3 10 5))) !! j
       = Some e →
       emergencyStop e = negb (bool_decide (j = 1%nat))).
Proof.
  split.
  - apply (fleet_latch_calls 7 false (newSystem 3 10 5)). right. simpl. lia.
  - intros j e.
    apply (fleet_latch_calls 2 false (newSystem 3 10 5));
      [simpl; lia | apply newSystem_cars_match | simpl; lia].
Defined.

(** X17: a plain request that names as preferred a car in maintenance is
    dropped: the fleet is left exactly as it was (the car's [requestFloor]
    answers [false] and the dispatcher ignores the answer). *)
Theorem requestElevator_preferred_in_maintenance (floor : Z)
    (type : RequestType) (preferredElevator : Z)
    (sys : ElevatorControlSystem) (e : Elevator) :
  1 ≤ preferredElevator →
  elevators sys !! Z.to_nat (preferredElevator - 1) = Some e →
  maintenanceMode e = true →
  requestElevator floor type false preferredElevator sys = sys.
Proof.
  intros Hid He Hmaint. unfold requestElevator.
  case_bool_decide as Hrange; [done |].
  assert (Z.to_nat (preferredElevator - 1) < length (elevators sys))%nat
    as Hlt by (apply lookup_lt_is_Some; eauto).
  rewrite car_index by lia.
  unfold forward. destruct sys as [es mf]. simpl in *. f_equal.
  apply list_eq. intros j. rewrite list_lookup_alter.
  destruct (decide (Z.to_nat (preferredElevator - 1) = j)) as [<- | Hne];
    [| done].
  rewrite He. simpl. by rewrite requestFloor_in_maintenance.
Qed.

Lemma requestElevator_preferred_in_maintenance_witness :
  let sys := System.setMaintenanceMode 2 true (newSystem 3 10 5) in
  requestElevator 4 INTERNAL false 2 sys = sys.
Proof.
  intros sys.
  apply (requestElevator_preferred_in_maintenance 4 INTERNAL 2 sys
           (set_maintenanceMode true (newElevator 2 10 5)));
    [lia | reflexivity | reflexivity].
Defined.

(** ** Serving a single car call *)

Section LoneCall.

Implicit Types (e : Elevator) (t : Z).

Lemma requests_in_order_empty : requests_in_order ∅ = [].
Proof. unfold requests_in_order. by rewrite map_to_list_empty. Qed.

Lemma set_state_flags (st : ElevatorState) e :
  running (set_state st e) = running e
  ∧ emergencyStop (set_state st e) = emergencyStop e
  ∧ maintenanceMode (set_state st e) = maintenanceMode e.
Proof. done. Qed.

Lemma chooseDirection_flags e :
  running (chooseDirection e) = running e
  ∧ emergencyStop (chooseDirection e) = emergencyStop e
  ∧ maintenanceMode (chooseDirection e) = maintenanceMode e.
Proof.
  unfold chooseDirection. destruct (bool_decide _); [| done].
  by destruct (_ || _).
Qed.

Lemma updateState_flags e :
  running (updateState e) = running e
  ∧ emergencyStop (updateState e) = emergencyStop e
  ∧ maintenanceMode (updateState e) = maintenanceMode e.
Proof.
  unfold updateState. destruct (_ && _); [done |].
  by destruct (bool_decide _).
Qed.

Lemma lone_call_target e t :
  internalRequests e = {[t]} → findNextFloor e = t.
Proof.
  intros Hcall.
  assert (internalRequests e ≠ ∅) as Hne.
  { rewrite Hcall. intros Hempty.
    assert (t ∈ (∅ : gset Z)) as Hin by (rewrite <- Hempty; by apply elem_of_singleton).
    by apply not_elem_of_empty in Hin. }
  destruct (findNextFloor_internal e Hne) as [Hin _].
  rewrite Hcall in Hin. by apply elem_of_singleton in Hin.
Qed.

Lemma lone_call_pending e t : internalRequests e = {[t]} → pending e.
Proof.
  intros Hcall. left. rewrite Hcall. intros Hempty.
  assert (t ∈ (∅ : gset Z)) as Hin by (rewrite <- Hempty; by apply elem_of_singleton).
  by apply not_elem_of_empty in Hin.
Qed.

(** The iteration of a car that has work and no latch set. *)
Lemma control_iteration_working (entering exiting : Z) e :
  running e = true → emergencyStop e = false → maintenanceMode e = false →
  pending e →
  control_iteration [] entering exiting e
  = Continue
      (updateState
         (if shouldStopAtCurrentFloor (move (chooseDirection e))
          then stopCycle entering exiting (move (chooseDirection e))
          else move (chooseDirection e))).
Proof.
  intros Hrun Hem Hmaint Hpend. unfold control_iteration.
  rewrite Hrun, Hem, Hmaint. simpl.
  assert (wake_condition e = true) as ->; [| done].
  unfold wake_condition. rewrite (pending_test e Hpend). done.
Qed.

Lemma updateState_no_request e :
  internalRequests e = ∅ → externalRequests e = ∅ →
  state (updateState e) = IDLE.
Proof.
  intros Hi Hx. unfold updateState, hasExternalRequests.
  rewrite Hi, Hx, requests_in_order_empty. simpl.
  by rewrite bool_decide_eq_true_2.
Qed.

End LoneCall.

Section LoneCallRun.

Implicit Types (e : Elevator) (t : Z) (st : ElevatorState).

Lemma chooseDirection_towards st e t :
  st = MOVING_UP ∨ st = MOVING_DOWN →
  internalRequests e = {[t]} →
  state e = IDLE ∨ state e = st →
  0 < heading st * (t - currentFloor e) →
  state (chooseDirection e) = st.
Proof.
  intros Hst Hcall Hstate Htowards. unfold chooseDirection.
  destruct Hstate as [Hidle | Hmoving].
  - rewrite bool_decide_eq_true_2 by done.
    rewrite (pending_test e (lone_call_pending e t Hcall)). simpl.
    rewrite (lone_call_target e t Hcall).
    destruct Hst as [-> | ->]; simpl in Htowards.
    + apply direction_up. lia.
    + apply direction_down. lia.
  - rewrite bool_decide_eq_false_2; [done |].
    rewrite Hmoving. by destruct Hst as [-> | ->].
Qed.

(** One iteration brings the car one floor nearer to its only call; on
    arrival the call is served and the car goes idle. *)
Lemma lone_call_step st e t (entering exiting : Z) :
  st = MOVING_UP ∨ st = MOVING_DOWN →
  lone_call e t → 1 ≤ t →
  state e = IDLE ∨ state e = st →
  0 < heading st * (t - currentFloor e) →
  let e' := act (ActControl [] entering exiting) e in
  currentFloor e' = currentFloor e + heading st
  ∧ totalFloorsTraveled e' = totalFloorsTraveled e + 1
  ∧ (currentFloor e + heading st ≠ t →
     lone_call e' t ∧ state e' = st ∧ totalTrips e' = totalTrips e)
  ∧ (currentFloor e + heading st = t →
     state e' = IDLE ∧ internalRequests e' = ∅ ∧ externalRequests e' = ∅
     ∧ totalTrips e' = totalTrips e + 1).
Proof.
  intros Hst (Hcall & Hhall & Hrun & Hem & Hmaint) Ht Hstate Htowards e'.
  subst e'. simpl.
  rewrite control_iteration_working
    by (done || by apply (lone_call_pending e t)).
  set (e1 := chooseDirection e).
  assert (state e1 = st) as Hst1 by by apply (chooseDirection_towards st e t).
  destruct (chooseDirection_control_only e)
    as (_ & Hf1 & _ & _ & _ & _ & Hi1 & Hx1 & Ht1 & Htf1 & _).
  destruct (chooseDirection_flags e) as (Hr1 & He1 & Hm1).
  fold e1 in Hf1, Hi1, Hx1, Ht1, Htf1, Hr1, He1, Hm1.
  set (e2 := move e1).
  destruct (move_fields e1)
    as (_ & Hst2 & _ & _ & _ & _ & _ & Hi2 & Hx2 & Hr2 & He2 & Hm2 & Ht2).
  destruct (move_motion e1) as (Hf2 & Htf2 & _).
  fold e2 in Hst2, Hi2, Hx2, Hr2, He2, Hm2, Ht2, Hf2, Htf2.
  rewrite Hst1 in Hf2, Htf2. rewrite Hf1 in Hf2. rewrite Htf1 in Htf2.
  assert (Z.abs (heading st) = 1) as Habs by by destruct Hst as [-> | ->].
  rewrite Habs in Htf2.
  assert (shouldStopAtCurrentFloor e2
          = bool_decide (currentFloor e + heading st = t)) as Hstop.
  { unfold shouldStopAtCurrentFloor.
    rewrite Hi2, Hi1, Hcall, Hx2, Hx1, Hhall, Hf2, lookup_empty.
    destruct (decide (currentFloor e + heading st = t)) as [Heq | Hne].
    - rewrite !bool_decide_eq_true_2; [done | done |].
      by apply elem_of_singleton.
    - rewrite !bool_decide_eq_false_2; [done | done |].
      by rewrite elem_of_singleton. }
  rewrite Hstop.
  destruct (decide (currentFloor e + heading st = t)) as [Heq | Hne].
  - rewrite bool_decide_eq_true_2 by done.
    set (e3 := stopCycle entering exiting e2).
    destruct (stopCycle_requests e2 entering exiting) as (Hi3 & Hx3 & Ht3).
    destruct (stopCycle_fixed e2 entering exiting)
      as (_ & Hf3 & _ & _ & _ & _ & _ & Htf3).
    fold e3 in Hi3, Hx3, Ht3, Hf3, Htf3.
    assert (internalRequests e3 = ∅) as Hi3'.
    { rewrite Hi3, Hi2, Hi1, Hcall, Hf2, Heq. apply set_eq. intros x.
      rewrite elem_of_difference. split; [by intros [? ?] |].
      intros Hx. by apply not_elem_of_empty in Hx. }
    assert (externalRequests e3 = ∅) as Hx3'.
    { rewrite Hx3, Hx2, Hx1, Hhall. apply delete_empty. }
    destruct (updateState_control_only e3)
      as (_ & Hf4 & _ & _ & _ & _ & Hi4 & Hx4 & Ht4 & Htf4 & _).
    split; [by rewrite Hf4, Hf3 |]. split; [by rewrite Htf4, Htf3 |].
    split; [done |]. intros _.
    split; [by apply updateState_no_request |].
    split; [by rewrite Hi4 |]. split; [by rewrite Hx4 |].
    rewrite Ht4, Ht3, Ht2. lia.
  - rewrite bool_decide_eq_false_2 by done.
    destruct (updateState_control_only e2)
      as (_ & Hf4 & _ & _ & _ & _ & Hi4 & Hx4 & Ht4 & Htf4 & _).
    destruct (updateState_flags e2) as (Hr4 & He4 & Hm4).
    split; [by rewrite Hf4 |]. split; [by rewrite Htf4 |].
    split; [| done]. intros _. split.
    + unfold lone_call.
      rewrite Hi4, Hx4, Hr4, He4, Hm4, Hi2, Hx2, Hr2, He2, Hm2,
        Hi1, Hx1, Hr1, He1, Hm1.
      done.
    + split; [| by rewrite Ht4, Ht2].
      assert (internalRequests e2 = {[t]}) as Hcall2 by by rewrite Hi2, Hi1.
      unfold updateState.
      replace (bool_decide (internalRequests e2 = ∅)
               && negb (hasExternalRequests e2)) with false.
      2: { pose proof (pending_test e2 (lone_call_pending e2 t Hcall2))
             as Hwork.
           symmetry.
           destruct (bool_decide (internalRequests e2 = ∅)),
             (hasExternalRequests e2); done. }
      rewrite (lone_call_target e2 t Hcall2).
      rewrite bool_decide_eq_true_2 by lia. simpl. rewrite Hf2.
      destruct Hst as [-> | ->]; simpl in *.
      * apply direction_up. lia.
      * apply direction_down. lia.
Qed.

Lemma lone_call_run st (draws : list (Z * Z)) :
  st = MOVING_UP ∨ st = MOVING_DOWN →
  ∀ e t,
    lone_call e t → 1 ≤ t →
    state e = IDLE ∨ state e = st →
    0 < heading st * (t - currentFloor e) →
    length draws = Z.to_nat (heading st * (t - currentFloor e)) →
    let e' := run (iterations draws) e in
    currentFloor e' = t ∧ state e' = IDLE
    ∧ internalRequests e' = ∅ ∧ externalRequests e' = ∅
    ∧ totalTrips e' = totalTrips e + 1
    ∧ totalFloorsTraveled e'
      = totalFloorsTraveled e + heading st * (t - currentFloor e).
Proof.
  intros Hst. induction draws as [| d draws IH];
    intros e t Hlone Ht Hstate Htowards Hlen; simpl in Hlen; [lia |].
  cbv zeta.
  change (run (iterations (d :: draws)) e)
    with (run (iterations draws) (act (ActControl [] d.1 d.2) e)).
  destruct (lone_call_step st e t d.1 d.2 Hst Hlone Ht Hstate Htowards)
    as (Hf & Htf & Hon & Harrived).
  set (e1 := act (ActControl [] d.1 d.2) e) in *.
  assert (heading st * heading st = 1) as Hsq by by destruct Hst as [-> | ->].
  destruct (decide (currentFloor e + heading st = t)) as [Heq | Hne].
  - destruct (Harrived Heq) as (Hidle & Hi & Hx & Htrips).
    assert (heading st * (t - currentFloor e) = 1) as Hone by nia.
    rewrite Hone in Hlen. destruct draws; [| simpl in Hlen; lia].
    change (run (iterations []) e1) with e1.
    rewrite Hf, Htf, Hone. by repeat split.
  - destruct (Hon Hne) as (Hlone1 & Hst1 & Htrips).
    assert (heading st * (t - currentFloor e1)
            = heading st * (t - currentFloor e) - 1) as Hless
      by (rewrite Hf; nia).
    assert (0 < heading st * (t - currentFloor e1)) as Htowards1.
    { rewrite Hless.
      assert (heading st * (t - currentFloor e) ≠ 1); [| lia].
      intros Hone. apply Hne. destruct Hst as [-> | ->]; simpl in *; lia. }
    destruct (IH e1 t Hlone1 Ht (or_intror Hst1) Htowards1)
      as (H1 & H2 & H3 & H4 & H5 & H6); [lia |].
    split; [exact H1 |]. split; [exact H2 |]. split; [exact H3 |].
    split; [exact H4 |]. split; [lia |]. rewrite H6, Htf, Hless. lia.
Qed.

End LoneCallRun.

(** X18: a running car with no latch set, no hall call and a single car
    call for a floor [t] of the building other than its own, idle or
    already moving towards [t], reaches [t] after exactly [|t - floor|]
    iterations of the control loop, whatever the draws: it is then at
    floor [t], [IDLE], with both request collections empty, one more stop
    counted and [|t - floor|] more floors travelled. *)
Theorem lone_call_served (e : Elevator) (t : Z) (draws : list (Z * Z)) :
  lone_call e t →
  1 ≤ t →
  state e = IDLE
  ∨ (state e = MOVING_UP ∧ currentFloor e < t)
  ∨ (state e = MOVING_DOWN ∧ t < currentFloor e) →
  currentFloor e ≠ t →
  length draws = Z.to_nat (Z.abs (t - currentFloor e)) →
  let e' := run (iterations draws) e in
  currentFloor e' = t ∧ state e' = IDLE
  ∧ internalRequests e' = ∅ ∧ externalRequests e' = ∅
  ∧ totalTrips e' = totalTrips e + 1
  ∧ totalFloorsTraveled e'
    = totalFloorsTraveled e + Z.abs (t - currentFloor e).
Proof.
  intros Hlone Ht Hstate Hne Hlen.
  destruct (decide (currentFloor e < t)) as [Hup | Hdown].
  - assert (Z.abs (t - currentFloor e)
            = heading MOVING_UP * (t - currentFloor e)) as Habs
      by (simpl; lia).
    rewrite Habs in *.
    apply (lone_call_run MOVING_UP); try done; [by left | | simpl; lia].
    destruct Hstate as [? | [[? ?] | [? ?]]]; [by left | by right | lia].
  - assert (Z.abs (t - currentFloor e)
            = heading MOVING_DOWN * (t - currentFloor e)) as Habs
      by (simpl; lia).
    rewrite Habs in *.
    apply (lone_call_run MOVING_DOWN); try done; [by right | | simpl; lia].
    destruct Hstate as [? | [[? ?] | [? ?]]]; [by left | lia | by right].
Qed.

Lemma lone_call_served_witness :
  let e := (requestFloor 4 INTERNAL false (newElevator 1 10 5)).2 in
  let e' := run (iterations [(5, 0); (0, 0); (2, 0)]) e in
  currentFloor e' = 4 ∧ state e' = IDLE
  ∧ internalRequests e' = ∅ ∧ externalRequests e' = ∅
  ∧ totalTrips e' = totalTrips e + 1
  ∧ totalFloorsTraveled e' = totalFloorsTraveled e + Z.abs (4 - currentFloor e).
Proof.
  apply (lone_call_served
           (requestFloor 4 INTERNAL false (newElevator 1 10 5)).2 4
           [(5, 0); (0, 0); (2, 0)]).
  - unfold lone_call. repeat split; reflexivity.
  - lia.
  - by left.
  - vm_compute. congruence.
  - reflexivity.
Defined.

(** ** The car stays in the shaft *)

Lemma run_maxFloors (acts : list Action) (e : Elevator) :
  maxFloors (run acts e) = maxFloors e.
Proof.
  apply (run_preserves (λ x, maxFloors x = maxFloors e)); try done.
  - intros x y (_ & _ & Hm & _). by rewrite Hm.
  - intros x floor type emergency.
    destruct (requestFloor_request_only x floor type emergency)
      as (_ & _ & _ & Hm & _).
    by rewrite Hm.
  - intros x. destruct (move_fields x) as (_ & _ & Hm & _). by rewrite Hm.
  - intros x entering exiting.
    destruct (stopCycle_fixed x entering exiting) as (_ & _ & Hm & _).
    by rewrite Hm.
Qed.

(** X20: what every run of a car keeps in a building of at least one and
    fewer than [INT_MAX] floors: [maxFloors] is the value the car was built
    with, the car never goes below floor 0 nor above [maxFloors], every
    floor in [internalRequests] and every floor with an entry in
    [externalRequests] lies in [1, maxFloors], and [floors_in_shaft]
    holds. *)
Lemma run_in_shaft (acts : list Action) (n floors cap : Z) :
  1 ≤ floors < INT_MAX →
  let e := run acts (newElevator n floors cap) in
  maxFloors e = floors
  ∧ 0 ≤ currentFloor e ≤ maxFloors e
  ∧ (∀ x, x ∈ internalRequests e → 1 ≤ x ≤ maxFloors e)
  ∧ (∀ f p, externalRequests e !! f = Some p → 1 ≤ f ≤ maxFloors e)
  ∧ floors_in_shaft e.
Proof.
  intros Hmax e.
  destruct (run_inv acts _ (newElevator_inv n floors cap Hmax))
    as [(Hcar & Hhall & Hcur & Hint) _].
  fold e in Hcar, Hhall, Hcur, Hint.
  split; [apply (run_maxFloors acts (newElevator n floors cap)) |].
  split; [exact Hcur |]. split; [exact Hcar |].
  split; [intros f p Hp; apply (Hhall f p Hp) |].
  split; [exact Hhall |]. split; [lia | exact Hint].
Qed.

Lemma run_in_shaft_witness :
  let e := run [ActRequest 1 INTERNAL false; ActControl [] 0 0;
                ActRequest 10 EXTERNAL_DOWN false; ActControl [] 0 0]
             (newElevator 1 10 5) in
  maxFloors e = 10
  ∧ 0 ≤ currentFloor e ≤ maxFloors e
  ∧ (∀ x, x ∈ internalRequests e → 1 ≤ x ≤ maxFloors e)
  ∧ (∀ f p, externalRequests e !! f = Some p → 1 ≤ f ≤ maxFloors e)
  ∧ floors_in_shaft e.
Proof.
  apply (run_in_shaft
           [ActRequest 1 INTERNAL false; ActControl [] 0 0;
            ActRequest 10 EXTERNAL_DOWN false; ActControl [] 0 0] 1 10 5).
  unfold INT_MAX. lia.
Defined.

(** X19: an iteration of the control loop leaves the car where it is
    whenever a latch is set, the car was stopped, or nothing is requested:
    floor, head count, request collections and counters are unchanged, and
    only control records can be added to the log. *)
Theorem control_iteration_stays (calls : list ControlCall)
    (entering exiting : Z) (e : Elevator) :
  emergencyStop e = true ∨ maintenanceMode e = true
  ∨ running e = false ∨ ¬ pending e →
  control_only e (act (ActControl calls entering exiting) e).
Proof.
  intros Hcause. simpl.
  destruct (control_iteration calls entering exiting e) as [e' | |] eqn:Hit;
    [| apply control_only_refl | apply control_only_refl].
  apply control_iteration_cases in Hit
    as [Hco | (e3 & _ & _ & Hrun & Hem & Hmaint & Hwake)]; [done |].
  exfalso. destruct Hcause as [? | [? | [? | Hnone]]]; try congruence.
  apply Hnone. unfold wake_condition in Hwake.
  rewrite Hrun, Hem, Hmaint in Hwake. simpl in Hwake.
  rewrite !orb_false_r in Hwake.
  apply orb_prop in Hwake as [Hcar | Hhall]; [left | by right].
  by apply negb_true_iff, bool_decide_eq_false in Hcar.
Qed.

Lemma control_iteration_stays_witness :
  let e := set_emergencyStop true
             (requestFloor 9 INTERNAL false (newElevator 1 10 5)).2 in
  control_only e (act (ActControl [CallResetEmergency] 0 0) e).
Proof.
  apply (control_iteration_stays [CallResetEmergency] 0 0). by left.
Defined.
